(** * LineParser: collinear point groups over exact rationals

    A shallow embedding of [src/LineParser.py].

    - Python's [Fraction] is a normalised numerator/denominator pair whose
      equality and hash are structural; it is modelled by [Qc], the canonical
      rationals, whose Leibniz equality is equality of the reduced fraction.
    - [Point] and [Line] are records; their [__eq__] is field-wise, so the
      Python sets and dicts keyed by them are [gset] and [gmap].
    - The order in which Python iterates over a set or over the keys of a
      dict is not fixed by the language; it is a parameter ([IterOrder]) of
      every function that iterates: any function from a set to a list of its
      elements without repeats. (Python may even list two equal sets in two
      orders; no statement below depends on the order.)
    - Exceptions ([ZeroDivisionError], [KeyError], [IndexError],
      [OverflowError]) are results of a small error monad.
    - [float(q)] raises OverflowError on a Fraction beyond the range of a
      float. Which rationals convert is a parameter ([in_range]) of the two
      [to_string] methods and of the report; the float and the text made of
      it are not modelled: a result line ["index,x,y,x,y,..."] is the pair of
      its index and the list of its points, in the order they are written.
    - [get_3_point_lines] returns the state it leaves on the object together
      with what the report returns or raises: the report assigns nothing to
      the object, so an exception in it leaves the state of the scan.
    - The hash of a Fraction is taken to be total. *)

From Stdlib Require Import QArith Qcanon Field Ascii.
From stdpp Require Import gmap list strings.

(* [set_solver] clears hypotheses that are already gone. *)
Set Warnings "-clear-no-such-hyp".

Local Open Scope Qc_scope.

(** ** Exceptions *)

Inductive exn := ZeroDivisionError | KeyError | IndexError | OverflowError.

Inductive result (A : Type) :=
  | Ok (a : A)
  | Raise (e : exn).
Arguments Ok {A} a.
Arguments Raise {A} e.

#[global] Instance result_bind : MBind result := λ A B k r,
  match r with
  | Ok a => k a
  | Raise e => Raise e
  end.

(** [for x in xs: st = body x st], stopping at the first exception. *)
Fixpoint for_each {A S} (body : A → S → result S) (xs : list A) (st : S) : result S :=
  match xs with
  | [] => Ok st
  | x :: xs' => st' ← body x st; for_each body xs' st'
  end.

(** [d[k]] *)
Definition getitem `{Countable K} {V} (d : gmap K V) (k : K) : result V :=
  match d !! k with
  | Some v => Ok v
  | None => Raise KeyError
  end.

(** [l[i]] for a non-negative [i] *)
Definition list_getitem {A} (l : list A) (i : nat) : result A :=
  match l !! i with
  | Some a => Ok a
  | None => Raise IndexError
  end.

(** [d[k].add(v)] on a dict of sets *)
Definition add_at `{Countable K} `{Countable V}
    (d : gmap K (gset V)) (k : K) (v : V) : result (gmap K (gset V)) :=
  s ← getitem d k; Ok (<[k := s ∪ {[v]}]> d).

(** [float(q)] on a Fraction: OverflowError when [q] is beyond the range of a
    float; [in_range] tells the rationals that convert. The float itself is
    not modelled. *)
Definition float (in_range : Qc → bool) (q : Qc) : result unit :=
  if in_range q then Ok () else Raise OverflowError.

(** [xrange(lo, hi)] *)
Definition xrange (lo hi : nat) : list nat := seq lo (hi - lo).

(** ** Iteration order of sets *)

Class IterOrder := {
  iter : ∀ `{Countable A}, gset A → list A;
  iter_perm : ∀ `{Countable A} (s : gset A), iter s ≡ₚ elements s
}.

Definition canonical_order : IterOrder :=
  {| iter := λ A _ _, elements; iter_perm := λ A _ _ s, reflexivity (elements s) |}.

Definition reversed_order : IterOrder :=
  {| iter := λ A _ _ s, reverse (elements s);
     iter_perm := λ A _ _ s, reverse_Permutation (elements s) |}.

(** ** class Point *)

Module Point.
Record t := mk { x : Qc; y : Qc }.

(** [__eq__], for [other] a Point (the [isinstance] test succeeds). *)
Definition eqb (self other : t) : bool :=
  bool_decide (x self = x other) && bool_decide (y self = y other).

(** [__ne__] *)
Definition neb (self other : t) : bool := negb (eqb self other).

(** [hash((self.x, self.y))], for the interpreter's hash of a pair. *)
Definition hash (hash_pair : Qc * Qc → Z) (self : t) : Z :=
  hash_pair (x self, y self).

(** [to_string]: its two conversions, in the order of the arguments of
    [format]; the text is not modelled. *)
Definition to_string (in_range : Qc → bool) (self : t) : result unit :=
  float in_range (x self);; float in_range (y self).

Definition to_pair (p : t) : Qc * Qc := (x p, y p).
Definition of_pair (q : Qc * Qc) : t := mk q.1 q.2.

#[export] Instance eq_dec : EqDecision t.
Proof. solve_decision. Defined.

#[export] Instance countable : Countable t.
Proof. apply (inj_countable' to_pair of_pair). intros []. reflexivity. Defined.
End Point.

(** ** class Line *)

Module Line.
Record t := mk { m : Qc; b : Qc }.

(** [Line(pt1, pt2)]: the division raises when the two abscissas agree. *)
Definition init (pt1 pt2 : Point.t) : result t :=
  if decide (Point.x pt1 - Point.x pt2 = 0) then Raise ZeroDivisionError
  else
    let m := (Point.y pt1 - Point.y pt2) / (Point.x pt1 - Point.x pt2) in
    Ok (mk m (Point.y pt1 - m * Point.x pt1)).

(** [__eq__], for [other] a Line (the [isinstance] test succeeds). *)
Definition eqb (self other : t) : bool :=
  bool_decide (m self = m other) && bool_decide (b self = b other).

(** [__ne__] *)
Definition neb (self other : t) : bool := negb (eqb self other).

(** [hash((self.m, self.b))], for the interpreter's hash of a pair. *)
Definition hash (hash_pair : Qc * Qc → Z) (self : t) : Z :=
  hash_pair (m self, b self).

(** [to_string]: its two conversions, in the order of the arguments of
    [format]; the text is not modelled. *)
Definition to_string (in_range : Qc → bool) (self : t) : result unit :=
  float in_range (m self);; float in_range (b self).

Definition to_pair (l : t) : Qc * Qc := (m l, b l).
Definition of_pair (q : Qc * Qc) : t := mk q.1 q.2.

#[export] Instance eq_dec : EqDecision t.
Proof. solve_decision. Defined.

#[export] Instance countable : Countable t.
Proof. apply (inj_countable' to_pair of_pair). intros []. reflexivity. Defined.

(** The point lies on the line: [y = m·x + b]. *)
Definition on (l : t) (p : Point.t) : Prop :=
  Point.y p = m l * Point.x p + b l.

#[export] Instance on_dec l p : Decision (on l p).
Proof. unfold on. apply _. Defined.
End Line.
Export (hints) Point Line.

(** ** class LineParser *)

Record LineParser := mkLineParser {
  points : gset Point.t;
  lines_to_points : gmap Line.t (gset Point.t);
  vertical_x_to_y : gmap Qc (gset Qc);
  three_point_lines : gset Line.t
}.

(** [LineParser()] *)
Definition fresh : LineParser := mkLineParser ∅ ∅ ∅ ∅.

Definition set_lines_to_points (d : gmap Line.t (gset Point.t)) (self : LineParser) :=
  mkLineParser (points self) d (vertical_x_to_y self) (three_point_lines self).
Definition set_vertical_x_to_y (d : gmap Qc (gset Qc)) (self : LineParser) :=
  mkLineParser (points self) (lines_to_points self) d (three_point_lines self).
Definition set_three_point_lines (s : gset Line.t) (self : LineParser) :=
  mkLineParser (points self) (lines_to_points self) (vertical_x_to_y self) s.
Definition set_points (s : gset Point.t) (self : LineParser) :=
  mkLineParser s (lines_to_points self) (vertical_x_to_y self) (three_point_lines self).

(** The body of the two loops of [get_lines_from_points], for one pair. *)
Definition visit (pt1 pt2 : Point.t) (self : LineParser) : result LineParser :=
  if decide (Point.x pt1 - Point.x pt2 ≠ 0) then
    line ← Line.init pt1 pt2;
    if decide (line ∈ dom (lines_to_points self)) then
      d1 ← add_at (lines_to_points self) line pt1;
      d2 ← add_at d1 line pt2;
      let self := set_lines_to_points d2 self in
      s ← getitem (lines_to_points self) line;
      if decide (3 ≤ size s ∧ line ∉ three_point_lines self)%nat then
        Ok (set_three_point_lines (three_point_lines self ∪ {[line]}) self)
      else Ok self
    else
      let d0 := <[line := ∅]> (lines_to_points self) in
      d1 ← add_at d0 line pt1;
      d2 ← add_at d1 line pt2;
      Ok (set_lines_to_points d2 self)
  else
    if decide (Point.x pt2 ∈ dom (vertical_x_to_y self)) then
      d1 ← add_at (vertical_x_to_y self) (Point.x pt2) (Point.y pt1);
      d2 ← add_at d1 (Point.x pt2) (Point.y pt2);
      Ok (set_vertical_x_to_y d2 self)
    else
      let d0 := <[Point.x pt2 := ∅]> (vertical_x_to_y self) in
      d1 ← add_at d0 (Point.x pt2) (Point.y pt1);
      d2 ← add_at d1 (Point.x pt2) (Point.y pt2);
      Ok (set_vertical_x_to_y d2 self).

(** The loop structure of [get_lines_from_points], for any loop body:
    [for pt1 in point_list: for i in xrange(start_index, len(point_list)):
     pt2 = point_list[i]; body; start_index += 1]. *)
Section scan.
Context {S : Type} (body : Point.t → Point.t → S → result S).

Definition inner_loop (point_list : list Point.t) (pt1 : Point.t)
    (start_index : nat) (st : S) : result S :=
  for_each (λ i st, pt2 ← list_getitem point_list i; body pt1 pt2 st)
    (xrange start_index (length point_list)) st.

Fixpoint outer_loop (point_list rest : list Point.t)
    (start_index : nat) (st : S) : result S :=
  match rest with
  | [] => Ok st
  | pt1 :: rest' =>
      st' ← inner_loop point_list pt1 start_index st;
      outer_loop point_list rest' (Datatypes.S start_index) st'
  end.

Definition scan (point_list : list Point.t) (st : S) : result S :=
  outer_loop point_list point_list 1%nat st.
End scan.

(** The pairs the scan visits, in order: the scan with a body that only
    records its two points. *)
Definition visited_pairs (point_list : list Point.t) : result (list (Point.t * Point.t)) :=
  scan (λ pt1 pt2 tr, Ok (tr ++ [(pt1, pt2)])) point_list [].

Section engine.
Context (O : IterOrder) (in_range : Qc → bool).

Definition get_lines_from_points (self : LineParser) : result LineParser :=
  let point_list := iter (points self) in
  scan visit point_list self.

(** The records of the file, already parsed, are added to [self.points]. *)
Definition parse_points_from_csv (records : list Point.t) (self : LineParser) : LineParser :=
  set_points (foldl (λ s p, s ∪ {[p]}) (points self) records) self.

Definition group : Type := nat * list Point.t.

(** [for point in pts: return_line += ',' + point.to_string()] *)
Definition write_points (pts : list Point.t) : result (list Point.t) :=
  for_each (λ point return_line,
      Point.to_string in_range point;; Ok (return_line ++ [point]))
    pts [].

(** [for y in y_list: return_line += ',{},{}'.format(float(x), float(y))] *)
Definition write_ordinates (x : Qc) (y_list : list Qc) : result (list Point.t) :=
  for_each (λ y return_line,
      float in_range x;; float in_range y;; Ok (return_line ++ [Point.mk x y]))
    y_list [].

(** First loop of [get_3_point_lines]: the qualified sloped lines. *)
Definition report_sloped (self : LineParser) (acc : list group * nat)
    : result (list group * nat) :=
  for_each (λ line '(results, index),
      Line.to_string in_range line;;
      pts ← getitem (lines_to_points self) line;
      return_line ← write_points (iter pts);
      Ok (results ++ [(index, return_line)], Datatypes.S index))
    (iter (three_point_lines self)) acc.

(** Second loop of [get_3_point_lines]: the vertical lines. *)
Definition report_vertical (self : LineParser) (acc : list group * nat)
    : result (list group * nat) :=
  for_each (λ x '(results, index),
      y_list ← getitem (vertical_x_to_y self) x;
      if decide (3 ≤ size y_list)%nat then
        return_line ← write_ordinates x (iter y_list);
        Ok (results ++ [(index, return_line)], Datatypes.S index)
      else Ok (results, index))
    (iter (dom (vertical_x_to_y self))) acc.

(** The two loops of the report, which read the object and assign nothing
    to it. *)
Definition report (self : LineParser) : result (list group) :=
  '(results, index) ← report_sloped self ([], 1%nat);
  '(results, index) ← report_vertical self (results, index);
  Ok results.

(** [get_3_point_lines]: the state the call leaves on the object, and what
    the report returns or raises. *)
Definition get_3_point_lines (records : list Point.t) (self : LineParser)
    : result (LineParser * result (list group)) :=
  let self := parse_points_from_csv records self in
  self ← get_lines_from_points self;
  Ok (self, report self).
End engine.

(** ** Reading and writing the files *)

(** A Python 2 [str] is a sequence of bytes. *)
Abbreviation str := (list ascii).

Definition newline : ascii := "010"%char.
Definition comma : ascii := ","%char.

(** [s.lstrip()], [s.rstrip()] and [s.strip()]: the whitespace of Python is
    the bytes 9 to 13 and the space. *)
Fixpoint lstrip (s : str) : str :=
  match s with
  | [] => []
  | c :: s' => if Ascii.is_space c then lstrip s' else s
  end.

Definition rstrip (s : str) : str := reverse (lstrip (reverse s)).

Definition strip (s : str) : str := rstrip (lstrip s).

(** [s.split(sep)] for a separator of one byte. *)
Fixpoint split (sep : ascii) (s : str) : list str :=
  match s with
  | [] => [[]]
  | c :: s' =>
      if decide (c = sep) then [] :: split sep s'
      else match split sep s' with
           | field :: fields => (c :: field) :: fields
           | [] => [[c]]
           end
  end.

(** [fo.readlines()] on the content of a file opened in binary mode: the
    lines, each with its newline, the last one maybe without. *)
Fixpoint readlines (content : str) : list str :=
  match content with
  | [] => []
  | c :: content' =>
      if decide (c = newline) then [c] :: readlines content'
      else match readlines content' with
           | line :: lines => (c :: line) :: lines
           | [] => [[c]]
           end
  end.

(** What the [except] clause of the two file methods catches. *)
Inductive caught :=
  | open_failed     (* [open] raised: IOError *)
  | unpack_failed   (* [x1, y1 = ...] on a list of another length: ValueError *)
  | Fraction_failed (* [Fraction(str)] raised *).

Section files.
(** [Fraction(s)] from the standard library, [None] when it raises. *)
Context (Fraction : str → option Qc).

(** The body of the loop of [parse_points_from_csv]. *)
Definition add_record (line : str) (self : LineParser) : caught + LineParser :=
  match split comma line with
  | [x1; y1] =>
      match Fraction x1 with
      | None => inl Fraction_failed
      | Some fx =>
          match Fraction y1 with
          | None => inl Fraction_failed
          | Some fy => inr (set_points (points self ∪ {[Point.mk fx fy]}) self)
          end
      end
  | _ => inl unpack_failed
  end.

(** The loop of [parse_points_from_csv], left at the first exception. *)
Fixpoint add_records (lines : list str) (self : LineParser) : LineParser * option caught :=
  match lines with
  | [] => (self, None)
  | line :: lines' =>
      match add_record line self with
      | inr self' => add_records lines' self'
      | inl e => (self, Some e)
      end
  end.

(** [parse_points_from_csv(file_path)] on the content of the file at
    [file_path], [None] when it cannot be opened: the state it leaves and the
    exception whose message it prints, if any. *)
Definition parse_points_from_csv_file (file : option str) (self : LineParser)
    : LineParser * option caught :=
  match file with
  | None => (self, Some open_failed)
  | Some content => add_records (strip <$> readlines content) self
  end.

(** [get_3_point_lines(file_path)], with the file as it is read. *)
Definition get_3_point_lines_file (O : IterOrder) (in_range : Qc → bool)
    (file : option str) (self : LineParser)
    : result (LineParser * result (list group)) :=
  let self := (parse_points_from_csv_file file self).1 in
  self ← get_lines_from_points O self;
  Ok (self, report O in_range self).
End files.

(** [write_lines_to_csv(lines, file_path)]: the content of the file after
    the call, [None] when [open] raised and nothing was written. *)
Definition write_lines_to_csv (lines : list str) (can_open : bool) : option str :=
  if can_open then Some (foldl (λ content line, content ++ (line ++ [newline])) [] lines)
  else None.

(** ** Concrete points for examples *)

Definition pt (a b : Z) : Point.t := Point.mk (Qc_of_Z a) (Qc_of_Z b).

(** A result with its rationals shown as numerator and denominator. *)
Definition show_point (p : Point.t) : (Z * positive) * (Z * positive) :=
  ((Qnum (Point.x p), Qden (Point.x p)), (Qnum (Point.y p), Qden (Point.y p))).
Definition show_group (g : group) := (g.1, show_point <$> g.2).
Definition show {A} (r : result (A * result (list group))) :=
  match r with
  | Ok (_, Ok results) => Some (show_group <$> results)
  | _ => None
  end.

(** The rationals that [float] converts in CPython: the quotient is rounded
    to the nearest double, and OverflowError is raised when that is beyond
    the largest double, that is from 2^1024 - 2^970 on. *)
Definition double_range (q : Qc) : bool :=
  (Z.abs (Qnum q) <? (2 ^ 1024 - 2 ^ 970) * Z.pos (Qden q))%Z.

(** A string literal as a [str]. *)
Definition lit (s : string) : str := String.list_ascii_of_string s.

(** [Fraction] on the strings of decimal digits, a part of what the library
    accepts, for the examples. *)
Fixpoint digits_value (acc : nat) (s : str) : option nat :=
  match s with
  | [] => Some acc
  | c :: s' => d ← Ascii.is_nat c; digits_value (10 * acc + d) s'
  end.

Definition Fraction_of_digits (s : str) : option Qc :=
  match s with
  | [] => None
  | _ => n ← digits_value 0 s; Some (Qc_of_Z (Z.of_nat n))
  end.

(** ** Vocabulary of the statements *)

(** What [Line(pt1, pt2)] holds when the division does not raise. *)
Definition through (pt1 pt2 : Point.t) : Line.t :=
  let m := (Point.y pt1 - Point.y pt2) / (Point.x pt1 - Point.x pt2) in
  Line.mk m (Point.y pt1 - m * Point.x pt1).

(** The pairs of elements of [l] at positions i < j, by i and then by j. *)
Fixpoint ordered_pairs (l : list Point.t) : list (Point.t * Point.t) :=
  match l with
  | [] => []
  | a :: l' => (pair a <$> l') ++ ordered_pairs l'
  end.

(** [d[k].add(u); d[k].add(v)], creating [d[k]] empty when absent. *)
Definition add_pair `{Countable K} `{Countable V}
    (d : gmap K (gset V)) (k : K) (u v : V) : gmap K (gset V) :=
  <[k := default ∅ (d !! k) ∪ {[u]} ∪ {[v]}]> d.

(** What the accumulated state holds once [visit] has run, from a new
    object, on the pairs of [tr]. *)
Record Inv (tr : list (Point.t * Point.t)) (self : LineParser) : Prop := {
  inv_line_key : ∀ l s, lines_to_points self !! l = Some s →
    ∃ p q, (p, q) ∈ tr ∧ Point.x p ≠ Point.x q ∧ through p q = l;
  inv_line_in : ∀ l s u, lines_to_points self !! l = Some s → u ∈ s →
    ∃ p q, (p, q) ∈ tr ∧ Point.x p ≠ Point.x q ∧ through p q = l ∧ (u = p ∨ u = q);
  inv_line_has : ∀ p q, (p, q) ∈ tr → Point.x p ≠ Point.x q →
    ∃ s, lines_to_points self !! through p q = Some s ∧ p ∈ s ∧ q ∈ s;
  inv_three : ∀ l, l ∈ three_point_lines self ↔
    ∃ s, lines_to_points self !! l = Some s ∧ (3 ≤ size s)%nat;
  inv_vert_key : ∀ x0 ys, vertical_x_to_y self !! x0 = Some ys →
    ∃ p q, (p, q) ∈ tr ∧ Point.x p = Point.x q ∧ Point.x q = x0;
  inv_vert_in : ∀ x0 ys y0, vertical_x_to_y self !! x0 = Some ys → y0 ∈ ys →
    ∃ p q, (p, q) ∈ tr ∧ Point.x p = Point.x q ∧ Point.x q = x0 ∧
           (y0 = Point.y p ∨ y0 = Point.y q);
  inv_vert_has : ∀ p q, (p, q) ∈ tr → Point.x p = Point.x q →
    ∃ ys, vertical_x_to_y self !! Point.x q = Some ys ∧ Point.y p ∈ ys ∧ Point.y q ∈ ys
}.

(** Membership in [three_point_lines] means 3 stored points or more. *)
Definition qualified (self : LineParser) : Prop :=
  ∀ l, l ∈ three_point_lines self ↔
    ∃ s, lines_to_points self !! l = Some s ∧ (3 ≤ size s)%nat.

(** The visited pairs [tr] join distinct points of [P] and cover every two
    distinct points of [P] in one orientation at least. *)
Definition Complete (P : gset Point.t) (tr : list (Point.t * Point.t)) : Prop :=
  (∀ p q, (p, q) ∈ tr → p ∈ P ∧ q ∈ P ∧ p ≠ q) ∧
  (∀ p q, p ∈ P → q ∈ P → p ≠ q → (p, q) ∈ tr ∨ (q, p) ∈ tr).

(** Consecutive labels from [n] on. *)
Definition label (n : nat) (gs : list (list Point.t)) : list group :=
  zip (seq n (length gs)) gs.

(** The points written for each qualified sloped line. *)
Definition sloped_groups (O : IterOrder) (self : LineParser) : list (list Point.t) :=
  (λ l, iter (default ∅ (lines_to_points self !! l))) <$> iter (three_point_lines self).

(** The points written for the abscissa [x0], when the report's test
    [len(y_list) >= 3] succeeds. *)
Definition vertical_group (O : IterOrder) (self : LineParser) (x0 : Qc)
    : option (list Point.t) :=
  let y_list := default ∅ (vertical_x_to_y self !! x0) in
  if decide (3 ≤ size y_list)%nat then Some (Point.mk x0 <$> iter y_list) else None.

(** The points written for each abscissa with three ordinates or more. *)
Definition vertical_groups (O : IterOrder) (self : LineParser) : list (list Point.t) :=
  omap (vertical_group O self) (iter (dom (vertical_x_to_y self))).

(** The two coordinates of a point convert to floats. *)
Definition point_ok (in_range : Qc → bool) (p : Point.t) : bool :=
  in_range (Point.x p) && in_range (Point.y p).

(** The numbers the first loop of the report converts for a line. *)
Definition line_ok (O : IterOrder) (in_range : Qc → bool) (self : LineParser)
    (l : Line.t) : bool :=
  in_range (Line.m l) && in_range (Line.b l)
  && forallb (point_ok in_range) (iter (default ∅ (lines_to_points self !! l))).

(** The numbers the second loop of the report converts for an abscissa. *)
Definition abscissa_ok (O : IterOrder) (in_range : Qc → bool) (self : LineParser)
    (x0 : Qc) : bool :=
  if decide (3 ≤ size (default ∅ (vertical_x_to_y self !! x0)))%nat
  then forallb (λ y0, in_range x0 && in_range y0)
         (iter (default ∅ (vertical_x_to_y self !! x0)))
  else true.

(** Every number the report converts with [float] is in range: the slope and
    the intercept of each line of [three_point_lines] and the coordinates of
    its points, the abscissa and the ordinates of each entry of
    [vertical_x_to_y] with 3 ordinates or more. *)
Definition convertible (in_range : Qc → bool) (self : LineParser) : Prop :=
  (∀ l, l ∈ three_point_lines self →
     in_range (Line.m l) = true ∧ in_range (Line.b l) = true ∧
     ∀ p, p ∈ default ∅ (lines_to_points self !! l) → point_ok in_range p = true) ∧
  (∀ x0 ys, vertical_x_to_y self !! x0 = Some ys → (3 ≤ size ys)%nat →
     in_range x0 = true ∧ ∀ y0, y0 ∈ ys → in_range y0 = true).

(** What the report gives on the state [self]: a result with the property
    [P], or OverflowError; the latter exactly when a number that it converts
    is out of range. *)
Definition reports (in_range : Qc → bool) (self : LineParser)
    (outcome : result (list group)) (P : list group → Prop) : Prop :=
  (convertible in_range self ∧ ∃ results, outcome = Ok results ∧ P results) ∨
  (¬ convertible in_range self ∧ outcome = Raise OverflowError).

(** Every number the report converts for three collinear points: their
    coordinates and, when they are not on a vertical line, the slope and the
    intercept of their line. *)
Definition three_ok (in_range : Qc → bool) (a c d : Point.t) : bool :=
  point_ok in_range a && point_ok in_range c && point_ok in_range d
  && (if decide (Point.x a = Point.x c) then true
      else in_range (Line.m (through a c)) && in_range (Line.b (through a c))).

(** Three points on one line: the cross product of the two differences is 0. *)
Definition collinear (a c d : Point.t) : Prop :=
  (Point.x c - Point.x a) * (Point.y d - Point.y a)
  = (Point.y c - Point.y a) * (Point.x d - Point.x a).

(** The groups of a result, each as a set of points. *)
Definition group_sets (results : list group) : gset (gset Point.t) :=
  list_to_set ((λ g : group, list_to_set g.2) <$> results).

(** Two reports on the state [self] end the same way: both give a result,
    with the same groups as sets of points, or both raise OverflowError; the
    latter exactly when a number that they convert is out of range. *)
Definition agree (in_range : Qc → bool) (self : LineParser)
    (outcome1 outcome2 : result (list group)) : Prop :=
  (convertible in_range self ∧
   ∃ results1 results2, outcome1 = Ok results1 ∧ outcome2 = Ok results2 ∧
     group_sets results1 = group_sets results2) ∨
  (¬ convertible in_range self ∧
   outcome1 = Raise OverflowError ∧ outcome2 = Raise OverflowError).

(** The groups a state stands for: the stored point set of each line with 3
    points or more, and the points of each abscissa with 3 ordinates or more. *)
Definition state_group (self : LineParser) (g : gset Point.t) : Prop :=
  (∃ l, lines_to_points self !! l = Some g ∧ (3 ≤ size g)%nat) ∨
  (∃ x0 ys, vertical_x_to_y self !! x0 = Some ys ∧ (3 ≤ size ys)%nat ∧
            g = set_map (Point.mk x0) ys).

(** The points of the object with abscissa [x0]. *)
Definition points_on_x (self : LineParser) (x0 : Qc) : gset Point.t :=
  filter (λ p, Point.x p = x0) (points self).

(** The state a visit of [pt1], [pt2] leaves. *)
Definition after (pt1 pt2 : Point.t) (self : LineParser) : LineParser :=
  if decide (Point.x pt1 = Point.x pt2) then
    set_vertical_x_to_y
      (add_pair (vertical_x_to_y self) (Point.x pt2) (Point.y pt1) (Point.y pt2)) self
  else
    let line := through pt1 pt2 in
    let s := default ∅ (lines_to_points self !! line) ∪ {[pt1]} ∪ {[pt2]} in
    mkLineParser (points self)
      (add_pair (lines_to_points self) line pt1 pt2)
      (vertical_x_to_y self)
      (if decide (line ∈ dom (lines_to_points self) ∧ 3 ≤ size s)%nat
       then three_point_lines self ∪ {[line]} else three_point_lines self).

(** The state [self'] keeps everything the state [self] holds: the same
    points, every qualified line, every entry with at least its elements. *)
Definition grows (self self' : LineParser) : Prop :=
  points self' = points self ∧
  three_point_lines self ⊆ three_point_lines self' ∧
  (∀ l s, lines_to_points self !! l = Some s →
     ∃ s', lines_to_points self' !! l = Some s' ∧ s ⊆ s') ∧
  (∀ x0 ys, vertical_x_to_y self !! x0 = Some ys →
     ∃ ys', vertical_x_to_y self' !! x0 = Some ys' ∧ ys ⊆ ys').

(** What [self'] holds beyond [self] comes from the points of [P]. *)
Definition adds_from (P : gset Point.t) (self self' : LineParser) : Prop :=
  (∀ l s' u, lines_to_points self' !! l = Some s' → u ∈ s' →
     (u ∈ P ∧ Line.on l u) ∨ ∃ s, lines_to_points self !! l = Some s ∧ u ∈ s) ∧
  (∀ x0 ys' y0, vertical_x_to_y self' !! x0 = Some ys' → y0 ∈ ys' →
     Point.mk x0 y0 ∈ P ∨ ∃ ys, vertical_x_to_y self !! x0 = Some ys ∧ y0 ∈ ys).

(** The point a line of the file stands for, when it has two fields that
    [Fraction] accepts. *)
Definition record_of_line (Fraction : str → option Qc) (line : str) : option Point.t :=
  match split comma line with
  | [x1; y1] => fx ← Fraction x1; fy ← Fraction y1; Some (Point.mk fx fy)
  | _ => None
  end.

(** The points of the lines before the first one that stands for no point. *)
Fixpoint records_before_error (Fraction : str → option Qc) (lines : list str)
    : list Point.t :=
  match lines with
  | [] => []
  | line :: lines' =>
      match record_of_line Fraction line with
      | Some p => p :: records_before_error Fraction lines'
      | None => []
      end
  end.

(** The records [parse_points_from_csv] reads from a file. *)
Definition records_of_file (Fraction : str → option Qc) (file : option str)
    : list Point.t :=
  match file with
  | None => []
  | Some content => records_before_error Fraction (strip <$> readlines content)
  end.

(** A line without a newline and without whitespace at its ends. *)
Definition clean (line : str) : Prop :=
  (newline ∉ line) ∧ strip line = line.

(** * Properties *)

(** ** Structural equality *)

(** [Point.__eq__] and [Line.__eq__] are equality of the records, which is
    why sets and dicts keyed by them are [gset] and [gmap]. *)
Lemma Point_eqb_eq p q : Point.eqb p q = true ↔ p = q.
Proof.
  destruct p as [a1 b1], q as [a2 b2]. unfold Point.eqb. simpl.
  rewrite andb_true_iff, !bool_decide_eq_true.
  split; [intros [-> ->]; reflexivity | intros [= -> ->]; auto].
Qed.

Lemma Line_eqb_eq l1 l2 : Line.eqb l1 l2 = true ↔ l1 = l2.
Proof.
  destruct l1 as [m1 b1], l2 as [m2 b2]. unfold Line.eqb. simpl.
  rewrite andb_true_iff, !bool_decide_eq_true.
  split; [intros [-> ->]; reflexivity | intros [= -> ->]; auto].
Qed.

(** Equal points and equal lines have equal hashes. *)
Lemma eqb_hash hash_pair :
  (∀ p q, Point.eqb p q = true → Point.hash hash_pair p = Point.hash hash_pair q) ∧
  (∀ k l, Line.eqb k l = true → Line.hash hash_pair k = Line.hash hash_pair l).
Proof.
  split.
  - intros p q ->%Point_eqb_eq. reflexivity.
  - intros k l ->%Line_eqb_eq. reflexivity.
Qed.

(** ** Exact arithmetic of the line through two points *)

Lemma Qc_minus_eq_0 (a c : Qc) : a - c = 0 ↔ a = c.
Proof.
  split; intros H.
  - transitivity ((a - c) + c); [ring | rewrite H; ring].
  - rewrite H. ring.
Qed.

Lemma init_through pt1 pt2 :
  Point.x pt1 ≠ Point.x pt2 → Line.init pt1 pt2 = Ok (through pt1 pt2).
Proof.
  intros Hx. unfold Line.init.
  destruct (decide _) as [E|_]; [|reflexivity].
  exfalso. apply Hx, Qc_minus_eq_0, E.
Qed.

Lemma init_raises pt1 pt2 :
  Point.x pt1 = Point.x pt2 → Line.init pt1 pt2 = Raise ZeroDivisionError.
Proof.
  intros Hx. unfold Line.init.
  destruct (decide _) as [_|N]; [reflexivity|].
  exfalso. apply N, Qc_minus_eq_0, Hx.
Qed.

Lemma through_on_l p q : Point.x p ≠ Point.x q → Line.on (through p q) p.
Proof. intros _. unfold Line.on, through. simpl. ring. Qed.

Lemma through_on_r p q : Point.x p ≠ Point.x q → Line.on (through p q) q.
Proof.
  intros Hx. unfold Line.on, through. simpl.
  assert (Point.x p - Point.x q ≠ 0) by (rewrite Qc_minus_eq_0; exact Hx).
  field. assumption.
Qed.

(** Two points of a line with different abscissas give back the line. *)
Lemma on_through l p q :
  Line.on l p → Line.on l q → Point.x p ≠ Point.x q → through p q = l.
Proof.
  destruct l as [m0 b0]. unfold Line.on, through. simpl. intros Hp Hq Hx.
  assert (Point.x p - Point.x q ≠ 0) by (rewrite Qc_minus_eq_0; exact Hx).
  rewrite Hp, Hq. f_equal; field; assumption.
Qed.

(** Two points of a line with the same abscissa are the same point. *)
Lemma on_same_x l p q :
  Line.on l p → Line.on l q → Point.x p = Point.x q → p = q.
Proof.
  destruct p as [px py], q as [qx qy]. unfold Line.on. simpl.
  intros -> -> ->. reflexivity.
Qed.

Lemma through_sym p q : Point.x p ≠ Point.x q → through q p = through p q.
Proof.
  intros Hx. apply on_through; auto using through_on_l, through_on_r.
Qed.

(** C4. Two pairs of points of one non-vertical line, each pair with distinct
    abscissas, construct Line values that [__eq__] finds equal and that have
    the same hash; the constructor computes [m = (y1 - y2) / (x1 - x2)] and
    [b = y1 - m * x1] in exact rationals; and two Line values are equal under
    [__eq__] only if their [(m, b)] pairs are equal. *)
Theorem C4_line_identity (hash_pair : Qc * Qc → Z) (l : Line.t) (p1 p2 q1 q2 : Point.t) :
  Line.on l p1 → Line.on l p2 → Line.on l q1 → Line.on l q2 →
  Point.x p1 ≠ Point.x p2 → Point.x q1 ≠ Point.x q2 →
  ∃ l1 l2,
    Line.init p1 p2 = Ok l1 ∧ Line.init q1 q2 = Ok l2 ∧
    Line.m l1 = (Point.y p1 - Point.y p2) / (Point.x p1 - Point.x p2) ∧
    Line.b l1 = Point.y p1 - Line.m l1 * Point.x p1 ∧
    Line.eqb l1 l2 = true ∧ Line.neb l1 l2 = false ∧
    Line.hash hash_pair l1 = Line.hash hash_pair l2 ∧
    (∀ k1 k2 : Line.t,
       Line.eqb k1 k2 = true → (Line.m k1, Line.b k1) = (Line.m k2, Line.b k2)).
Proof.
  intros Hp1 Hp2 Hq1 Hq2 Hp Hq.
  exists (through p1 p2), (through q1 q2).
  assert (E : through p1 p2 = through q1 q2).
  { rewrite (on_through l p1 p2), (on_through l q1 q2); auto. }
  repeat split; auto using init_through.
  - apply Line_eqb_eq, E.
  - unfold Line.neb. apply negb_false_iff, Line_eqb_eq, E.
  - rewrite E. reflexivity.
  - intros k1 k2 Hk. apply Line_eqb_eq in Hk. rewrite Hk. reflexivity.
Qed.

(** The points (0,1), (2,2) and (4,3), (-2,0) lie on [y = x/2 + 1]. *)
Lemma C4_line_identity_witness :
  ∃ l1 l2,
    Line.init (pt 0 1) (pt 2 2) = Ok l1 ∧ Line.init (pt 4 3) (pt (-2) 0) = Ok l2 ∧
    Line.m l1 = (Point.y (pt 0 1) - Point.y (pt 2 2)) / (Point.x (pt 0 1) - Point.x (pt 2 2)) ∧
    Line.b l1 = Point.y (pt 0 1) - Line.m l1 * Point.x (pt 0 1) ∧
    Line.eqb l1 l2 = true ∧ Line.neb l1 l2 = false ∧
    Line.hash (λ mb, Qnum mb.1 + Qnum mb.2)%Z l1 = Line.hash (λ mb, Qnum mb.1 + Qnum mb.2)%Z l2 ∧
    (∀ k1 k2 : Line.t,
       Line.eqb k1 k2 = true → (Line.m k1, Line.b k1) = (Line.m k2, Line.b k2)).
Proof.
  apply (C4_line_identity (λ mb, Qnum mb.1 + Qnum mb.2)%Z
           (Line.mk (Q2Qc (1 # 2)) (Qc_of_Z 1))).
  - apply Qc_is_canon. vm_compute. reflexivity.
  - apply Qc_is_canon. vm_compute. reflexivity.
  - apply Qc_is_canon. vm_compute. reflexivity.
  - apply Qc_is_canon. vm_compute. reflexivity.
  - intros H. apply (f_equal (λ q : Qc, Qnum q)) in H. vm_compute in H. discriminate.
  - intros H. apply (f_equal (λ q : Qc, Qnum q)) in H. vm_compute in H. discriminate.
Defined.

(** ** The loops of the scan *)

Lemma for_each_app {A S} (body : A → S → result S) xs ys st :
  for_each body (xs ++ ys) st = (st' ← for_each body xs st; for_each body ys st').
Proof.
  revert st. induction xs as [|a xs IH]; intros st; simpl; [reflexivity|].
  destruct (body a st); simpl; auto.
Qed.

Lemma for_each_fmap {A B S} (f : A → B) (body : B → S → result S) xs st :
  for_each body (f <$> xs) st = for_each (λ a, body (f a)) xs st.
Proof.
  revert st. induction xs as [|a xs IH]; intros st; simpl; [reflexivity|].
  destruct (body (f a) st); simpl; auto.
Qed.

Lemma for_each_ext {A S} (f g : A → S → result S) xs st :
  (∀ a s, f a s = g a s) → for_each f xs st = for_each g xs st.
Proof.
  intros E. revert st. induction xs as [|a xs IH]; intros st; simpl; [reflexivity|].
  rewrite E. destruct (g a st); simpl; auto.
Qed.

Lemma list_getitem_Some {A} (l : list A) i a :
  l !! i = Some a → list_getitem l i = Ok a.
Proof. unfold list_getitem. intros ->. reflexivity. Qed.

Lemma getitem_Some `{Countable K} {V} (d : gmap K V) k v :
  d !! k = Some v → getitem d k = Ok v.
Proof. unfold getitem. intros ->. reflexivity. Qed.

Section scan_facts.
Context {S : Type} (body : Point.t → Point.t → S → result S).

(** The inner loop reads [point_list[start_index:]]. *)
Lemma inner_loop_drop l pt1 k st :
  inner_loop body l pt1 k st = for_each (body pt1) (drop k l) st.
Proof.
  unfold inner_loop, xrange.
  remember (length l - k)%nat as d eqn:Hd.
  revert k st Hd. induction d as [|d IH]; intros k st Hd.
  - rewrite drop_ge by lia. reflexivity.
  - destruct (lookup_lt_is_Some_2 l k) as [a Ha]; [lia|].
    rewrite (drop_S _ _ _ Ha). simpl.
    rewrite (list_getitem_Some _ _ _ Ha). simpl.
    destruct (body pt1 a st) as [st'|e]; simpl; [|reflexivity].
    apply IH. lia.
Qed.

Lemma outer_loop_pairs l rest k st :
  drop k l = rest →
  outer_loop body l rest (Datatypes.S k) st
  = for_each (λ pq, body pq.1 pq.2) (ordered_pairs rest) st.
Proof.
  revert k st. induction rest as [|pt1 rest IH]; intros k st Hk; simpl.
  - reflexivity.
  - assert (Hd : drop (Datatypes.S k) l = rest).
    { rewrite <- (Nat.add_1_l k), Nat.add_comm, <- drop_drop, Hk. reflexivity. }
    rewrite inner_loop_drop, Hd, for_each_app, for_each_fmap. simpl.
    destruct (for_each (body pt1) rest st) as [st'|e]; simpl; [|reflexivity].
    apply IH, Hd.
Qed.

Lemma scan_pairs l st :
  scan body l st = for_each (λ pq, body pq.1 pq.2) (ordered_pairs l) st.
Proof. apply outer_loop_pairs. reflexivity. Qed.
End scan_facts.

Lemma trace_for_each (ps tr : list (Point.t * Point.t)) :
  for_each (λ pq tr, Ok (tr ++ [(pq.1, pq.2)])) ps tr = Ok (tr ++ ps).
Proof.
  revert tr. induction ps as [|[p q] ps IH]; intros tr; simpl.
  - rewrite app_nil_r. reflexivity.
  - rewrite IH, <- app_assoc. reflexivity.
Qed.

Lemma visited_pairs_ordered l : visited_pairs l = Ok (ordered_pairs l).
Proof. unfold visited_pairs. rewrite scan_pairs. apply trace_for_each. Qed.

Lemma ordered_pairs_length l :
  (2 * length (ordered_pairs l) = length l * (length l - 1))%nat.
Proof.
  induction l as [|a l IH]; simpl; [reflexivity|].
  rewrite length_app, length_fmap. nia.
Qed.

Lemma elem_of_ordered_pairs l p q :
  (p, q) ∈ ordered_pairs l ↔
  ∃ i j, (i < j)%nat ∧ l !! i = Some p ∧ l !! j = Some q.
Proof.
  induction l as [|a l IH]; simpl.
  - split; [intros H; inversion H | intros (i & j & _ & H & _); discriminate].
  - rewrite elem_of_app, list_elem_of_fmap, IH. split.
    + intros [(c & [= -> ->] & Hc)|(i & j & Hij & Hi & Hj)].
      * apply list_elem_of_lookup in Hc as [j Hj].
        exists 0%nat, (Datatypes.S j). split; [lia|auto].
      * exists (Datatypes.S i), (Datatypes.S j). split; [lia|auto].
    + intros (i & j & Hij & Hi & Hj).
      destruct j as [|j]; [lia|]. simpl in Hj.
      destruct i as [|i]; simpl in Hi.
      * left. exists q. split; [congruence|].
        apply list_elem_of_lookup. eauto.
      * right. exists i, j. split; [lia|auto].
Qed.

Lemma elem_of_ordered_pairs_l l p q : (p, q) ∈ ordered_pairs l → p ∈ l.
Proof.
  rewrite elem_of_ordered_pairs. intros (i & j & _ & Hi & _).
  apply list_elem_of_lookup. eauto.
Qed.

Lemma elem_of_ordered_pairs_r l p q : (p, q) ∈ ordered_pairs l → q ∈ l.
Proof.
  rewrite elem_of_ordered_pairs. intros (i & j & _ & _ & Hj).
  apply list_elem_of_lookup. eauto.
Qed.

Lemma ordered_pairs_ne l p q : NoDup l → (p, q) ∈ ordered_pairs l → p ≠ q.
Proof.
  intros Hnd. rewrite elem_of_ordered_pairs. intros (i & j & Hij & Hi & Hj) ->.
  assert (i = j) by (eapply NoDup_lookup; eauto). lia.
Qed.

Lemma ordered_pairs_total l p q :
  p ∈ l → q ∈ l → p ≠ q → (p, q) ∈ ordered_pairs l ∨ (q, p) ∈ ordered_pairs l.
Proof.
  intros [i Hi]%list_elem_of_lookup [j Hj]%list_elem_of_lookup Hne.
  rewrite !elem_of_ordered_pairs.
  destruct (Nat.lt_trichotomy i j) as [H|[H|H]].
  - left. eauto.
  - subst. congruence.
  - right. eauto.
Qed.

Lemma ordered_pairs_asym l p q :
  NoDup l → (p, q) ∈ ordered_pairs l → (q, p) ∉ ordered_pairs l.
Proof.
  intros Hnd. rewrite !elem_of_ordered_pairs.
  intros (i & j & Hij & Hi & Hj) (i' & j' & Hij' & Hi' & Hj').
  assert (i = j') by (eapply NoDup_lookup; eauto).
  assert (j = i') by (eapply NoDup_lookup; eauto). lia.
Qed.

Lemma ordered_pairs_NoDup l : NoDup l → NoDup (ordered_pairs l).
Proof.
  induction 1 as [|a l Ha Hnd IH]; simpl; [constructor|].
  apply NoDup_app. split; [|split].
  - apply NoDup_fmap_2; [|assumption]. intros c1 c2 [= ->]. reflexivity.
  - intros [p q] (c & [= -> ->] & Hc)%list_elem_of_fmap Hin.
    apply elem_of_ordered_pairs_l in Hin. contradiction.
  - exact IH.
Qed.

(** C6. On a sequence of n distinct points the scan runs its body on each
    pair of positions i < j exactly once, the earlier point as pt1: the trace
    of visited pairs has n·(n-1)/2 entries, none repeated, holds (pt1, pt2)
    exactly when pt1 precedes pt2 in the sequence, and so holds each unordered
    pair in one orientation only; the scan proper runs [visit] on this trace. *)
Theorem C6_pair_enumeration (point_list : list Point.t) :
  NoDup point_list →
  ∃ tr,
    visited_pairs point_list = Ok tr ∧
    (∀ self, scan visit point_list self = for_each (λ pq, visit pq.1 pq.2) tr self) ∧
    length tr = (length point_list * (length point_list - 1) / 2)%nat ∧
    NoDup tr ∧
    (∀ pt1 pt2, (pt1, pt2) ∈ tr ↔
       ∃ i j, (i < j)%nat ∧ point_list !! i = Some pt1 ∧ point_list !! j = Some pt2) ∧
    (∀ pt1 pt2, pt1 ∈ point_list → pt2 ∈ point_list → pt1 ≠ pt2 →
       ((pt1, pt2) ∈ tr ∨ (pt2, pt1) ∈ tr) ∧ ¬ ((pt1, pt2) ∈ tr ∧ (pt2, pt1) ∈ tr)).
Proof.
  intros Hnd. exists (ordered_pairs point_list).
  split; [apply visited_pairs_ordered|].
  split; [intros self; apply scan_pairs|].
  split.
  { rewrite <- ordered_pairs_length, Nat.mul_comm, Nat.div_mul; [reflexivity|lia]. }
  split; [apply ordered_pairs_NoDup, Hnd|].
  split; [intros p q; apply elem_of_ordered_pairs|].
  intros p q Hp Hq Hne. split.
  - apply ordered_pairs_total; assumption.
  - intros [H1 H2]. exact (ordered_pairs_asym _ _ _ Hnd H1 H2).
Qed.

(** ** One visit *)

Lemma add_at_Some `{Countable K} `{Countable V} (d : gmap K (gset V)) k v s :
  d !! k = Some s → add_at d k v = Ok (<[k := s ∪ {[v]}]> d).
Proof. intros Hk. unfold add_at. rewrite (getitem_Some _ _ _ Hk). reflexivity. Qed.

Lemma add_at_twice `{Countable K} `{Countable V} (d : gmap K (gset V)) k u v s :
  d !! k = Some s →
  (d1 ← add_at d k u; add_at d1 k v) = Ok (add_pair d k u v).
Proof.
  intros Hk. rewrite (add_at_Some _ _ _ _ Hk). simpl.
  rewrite (add_at_Some _ _ _ (s ∪ {[u]})) by apply lookup_insert_eq.
  unfold add_pair. rewrite Hk, insert_insert_eq. reflexivity.
Qed.

Lemma add_at_twice_new `{Countable K} `{Countable V} (d : gmap K (gset V)) k u v :
  d !! k = None →
  (d1 ← add_at (<[k := ∅]> d) k u; add_at d1 k v) = Ok (add_pair d k u v).
Proof.
  intros Hk. rewrite (add_at_twice _ _ _ _ ∅) by apply lookup_insert_eq.
  unfold add_pair. rewrite lookup_insert_eq, Hk, insert_insert_eq. reflexivity.
Qed.

Lemma lookup_add_pair `{Countable K} `{Countable V} (d : gmap K (gset V)) k u v :
  add_pair d k u v !! k = Some (default ∅ (d !! k) ∪ {[u]} ∪ {[v]}).
Proof. apply lookup_insert_eq. Qed.

Lemma lookup_add_pair_ne `{Countable K} `{Countable V} (d : gmap K (gset V)) k k' u v :
  k ≠ k' → add_pair d k u v !! k' = d !! k'.
Proof. apply lookup_insert_ne. Qed.

(** The state after a visit of two points with different abscissas. *)
Lemma visit_sloped pt1 pt2 self :
  Point.x pt1 ≠ Point.x pt2 →
  ∃ self',
    visit pt1 pt2 self = Ok self' ∧
    points self' = points self ∧
    vertical_x_to_y self' = vertical_x_to_y self ∧
    lines_to_points self' = add_pair (lines_to_points self) (through pt1 pt2) pt1 pt2 ∧
    ∀ l, l ∈ three_point_lines self' ↔
      l ∈ three_point_lines self ∨
      (l = through pt1 pt2 ∧ ∃ s, lines_to_points self !! l = Some s ∧
         (3 ≤ size (s ∪ {[pt1]} ∪ {[pt2]}))%nat).
Proof.
  intros Hx. unfold visit.
  destruct (decide _) as [_|N]; [|exfalso; apply N; rewrite Qc_minus_eq_0; exact Hx].
  rewrite (init_through _ _ Hx). simpl.
  set (line := through pt1 pt2).
  destruct (decide (line ∈ dom (lines_to_points self))) as [Hin|Hout].
  - apply elem_of_dom in Hin as [s Hs].
    pose proof (add_at_twice (lines_to_points self) line pt1 pt2 s Hs) as E.
    destruct (add_at (lines_to_points self) line pt1) as [d1|]; simpl in E; [|discriminate].
    simpl. rewrite E. simpl.
    rewrite (getitem_Some _ _ _ (lookup_add_pair _ _ _ _)). simpl. rewrite Hs. simpl.
    destruct (decide _) as [[H3 Hn]|Hno]; eexists; (split; [reflexivity|]); simpl;
      repeat (split; [reflexivity|]); intros l.
    + rewrite elem_of_union, elem_of_singleton. split.
      * intros [? | ->]; [left|right]; eauto.
      * intros [? | [-> _]]; auto.
    + split; [auto|]. intros [? | [-> (s' & Hs' & H3)]]; [assumption|].
      rewrite Hs in Hs'. injection Hs' as <-.
      destruct (decide (line ∈ three_point_lines self)); [assumption|].
      exfalso. apply Hno. split; assumption.
  - apply not_elem_of_dom in Hout.
    pose proof (add_at_twice_new (lines_to_points self) line pt1 pt2 Hout) as E.
    destruct (add_at _ line pt1) as [d1|]; simpl in E; [|discriminate].
    simpl. rewrite E. simpl.
    eexists; (split; [reflexivity|]); simpl; repeat (split; [reflexivity|]).
    intros l. split; [auto|]. intros [? | [-> (s' & Hs' & _)]]; [assumption|].
    fold line in Hs'. congruence.
Qed.

(** The state after a visit of two points with the same abscissa. *)
Lemma visit_vertical pt1 pt2 self :
  Point.x pt1 = Point.x pt2 →
  ∃ self',
    visit pt1 pt2 self = Ok self' ∧
    points self' = points self ∧
    lines_to_points self' = lines_to_points self ∧
    three_point_lines self' = three_point_lines self ∧
    vertical_x_to_y self'
      = add_pair (vertical_x_to_y self) (Point.x pt2) (Point.y pt1) (Point.y pt2).
Proof.
  intros Hx. unfold visit.
  destruct (decide _) as [N|_]; [exfalso; apply N; rewrite Qc_minus_eq_0; exact Hx|].
  destruct (decide (Point.x pt2 ∈ dom (vertical_x_to_y self))) as [Hin|Hout].
  - apply elem_of_dom in Hin as [s Hs].
    pose proof (add_at_twice (vertical_x_to_y self) _ (Point.y pt1) (Point.y pt2) s Hs) as E.
    destruct (add_at (vertical_x_to_y self) _ (Point.y pt1)) as [d1|]; simpl in E; [|discriminate].
    simpl. rewrite E. simpl. eexists; repeat (split; [reflexivity|]). reflexivity.
  - apply not_elem_of_dom in Hout.
    pose proof (add_at_twice_new (vertical_x_to_y self) _ (Point.y pt1) (Point.y pt2) Hout) as E.
    destruct (add_at _ _ (Point.y pt1)) as [d1|]; simpl in E; [|discriminate].
    simpl. rewrite E. simpl. eexists; repeat (split; [reflexivity|]). reflexivity.
Qed.

Lemma visit_total pt1 pt2 self : ∃ self', visit pt1 pt2 self = Ok self'.
Proof.
  destruct (decide (Point.x pt1 = Point.x pt2)) as [E|N].
  - destruct (visit_vertical pt1 pt2 self E) as (self' & H & _). eauto.
  - destruct (visit_sloped pt1 pt2 self N) as (self' & H & _). eauto.
Qed.

Lemma for_each_visit_total tr self :
  ∃ self', for_each (λ pq, visit pq.1 pq.2) tr self = Ok self'.
Proof.
  revert self. induction tr as [|[p q] tr IH]; intros self; simpl; [eauto|].
  destruct (visit_total p q self) as [self1 ->]. simpl. apply IH.
Qed.


(** ** The state after a sequence of visits *)

Lemma size_union_le `{Countable A} (X Y : gset A) : (size (X ∪ Y) ≤ size X + size Y)%nat.
Proof.
  rewrite size_union_alt. apply Nat.add_le_mono_l, subseteq_size. set_solver.
Qed.

Lemma size_new_entry `{Countable A} (u v : A) : (size ((∅ : gset A) ∪ {[u]} ∪ {[v]}) ≤ 2)%nat.
Proof.
  etransitivity; [apply size_union_le|]. rewrite size_singleton.
  etransitivity; [apply Nat.add_le_mono_r, size_union_le|].
  rewrite size_empty, size_singleton. lia.
Qed.

Lemma qualified_visit a c self self' :
  qualified self → visit a c self = Ok self' → qualified self'.
Proof.
  intros Q Hv. destruct (decide (Point.x a = Point.x c)) as [Hx|Hx].
  { destruct (visit_vertical a c self Hx) as (st & Hv' & _ & Hl & H3 & _).
    rewrite Hv in Hv'. injection Hv' as <-.
    intros l. rewrite H3, Hl. apply Q. }
  destruct (visit_sloped a c self Hx) as (st & Hv' & _ & _ & Hl & H3).
  rewrite Hv in Hv'. injection Hv' as <-.
  intros l. rewrite H3, Hl, (Q l). destruct (decide (through a c = l)) as [<-|N].
  - rewrite lookup_add_pair. split.
    + intros [(s & Hs & Hsz)|(_ & s & Hs & Hsz)]; rewrite Hs; simpl;
        eexists; (split; [reflexivity|]); [|assumption].
      etransitivity; [exact Hsz|]. apply subseteq_size. set_solver.
    + intros (s' & [= <-] & Hsz).
      destruct (lines_to_points self !! through a c) as [s|] eqn:E; simpl in Hsz.
      * right. eauto.
      * assert (3 ≤ 2)%nat by (etransitivity; [exact Hsz | apply size_new_entry]). lia.
  - rewrite lookup_add_pair_ne by exact N.
    split; [|intros; left; assumption].
    intros [H|[-> _]]; [assumption|contradiction].
Qed.

Lemma Inv_fresh points0 : Inv [] (set_points points0 fresh).
Proof.
  split; simpl.
  - intros l s H. rewrite lookup_empty in H. discriminate.
  - intros l s u H. rewrite lookup_empty in H. discriminate.
  - intros p q H. inversion H.
  - intros l. split; [set_solver|]. intros (s & H & _). rewrite lookup_empty in H. discriminate.
  - intros x0 ys H. rewrite lookup_empty in H. discriminate.
  - intros x0 ys y0 H. rewrite lookup_empty in H. discriminate.
  - intros p q H. inversion H.
Qed.

Lemma elem_of_snoc {A} (l : list A) (a c : A) : a ∈ l ++ [c] ↔ a ∈ l ∨ a = c.
Proof. rewrite elem_of_app, list_elem_of_singleton. reflexivity. Qed.

Lemma Inv_visit_sloped tr self a c self' :
  Point.x a ≠ Point.x c → Inv tr self → visit a c self = Ok self' →
  Inv (tr ++ [(a, c)]) self'.
Proof.
  intros Hx I Hv.
  destruct (visit_sloped a c self Hx) as (st & Hv' & _ & Hy & Hl & H3).
  rewrite Hv in Hv'. injection Hv' as <-.
  assert (Hlk : ∀ l, lines_to_points self' !! l =
            if decide (through a c = l)
            then Some (default ∅ (lines_to_points self !! l) ∪ {[a]} ∪ {[c]})
            else lines_to_points self !! l).
  { intros l. rewrite Hl. destruct (decide _) as [<-|N].
    - apply lookup_add_pair.
    - apply lookup_add_pair_ne, N. }
  split.
  - intros l s. rewrite Hlk. destruct (decide _) as [<-|N]; intros Hs.
    + exists a, c. rewrite elem_of_snoc. auto.
    + destruct (inv_line_key _ _ I l s Hs) as (p & q & ? & ? & ?).
      exists p, q. rewrite elem_of_snoc. auto.
  - intros l s u. rewrite Hlk. destruct (decide _) as [<-|N]; intros Hs Hu.
    + injection Hs as <-. apply elem_of_union in Hu as [Hu|Hu].
      * apply elem_of_union in Hu as [Hu|Hu].
        -- destruct (lines_to_points self !! through a c) as [s|] eqn:E; simpl in Hu;
             [|set_solver].
           destruct (inv_line_in _ _ I _ s u E Hu) as (p & q & ? & ? & ? & ?).
           exists p, q. rewrite elem_of_snoc. auto.
        -- apply elem_of_singleton in Hu. exists a, c. rewrite elem_of_snoc. auto.
      * apply elem_of_singleton in Hu. exists a, c. rewrite elem_of_snoc. auto.
    + destruct (inv_line_in _ _ I l s u Hs Hu) as (p & q & ? & ? & ? & ?).
      exists p, q. rewrite elem_of_snoc. auto.
  - intros p q Hin Hpq. rewrite Hlk. apply elem_of_snoc in Hin as [Hin|[= -> ->]].
    + destruct (inv_line_has _ _ I p q Hin Hpq) as (s & Hs & Hp & Hq).
      destruct (decide _) as [_|N].
      * rewrite Hs. simpl. eexists. split; [reflexivity|]. set_solver.
      * eauto.
    + rewrite decide_True by reflexivity. eexists. split; [reflexivity|]. set_solver.
  - exact (qualified_visit _ _ _ _ (inv_three _ _ I) Hv).
  - intros x0 ys. rewrite Hy. intros Hs.
    destruct (inv_vert_key _ _ I x0 ys Hs) as (p & q & ? & ? & ?).
    exists p, q. rewrite elem_of_snoc. auto.
  - intros x0 ys y0. rewrite Hy. intros Hs Hy0.
    destruct (inv_vert_in _ _ I x0 ys y0 Hs Hy0) as (p & q & ? & ? & ? & ?).
    exists p, q. rewrite elem_of_snoc. auto.
  - intros p q Hin Hpq. rewrite Hy. apply elem_of_snoc in Hin as [Hin|[= -> ->]].
    + apply (inv_vert_has _ _ I p q Hin Hpq).
    + contradiction.
Qed.

Lemma Inv_visit_vertical tr self a c self' :
  Point.x a = Point.x c → Inv tr self → visit a c self = Ok self' →
  Inv (tr ++ [(a, c)]) self'.
Proof.
  intros Hx I Hv.
  destruct (visit_vertical a c self Hx) as (st & Hv' & _ & Hl & H3 & Hy).
  rewrite Hv in Hv'. injection Hv' as <-.
  assert (Hlk : ∀ x0, vertical_x_to_y self' !! x0 =
            if decide (Point.x c = x0)
            then Some (default ∅ (vertical_x_to_y self !! x0) ∪ {[Point.y a]} ∪ {[Point.y c]})
            else vertical_x_to_y self !! x0).
  { intros x0. rewrite Hy. destruct (decide _) as [<-|N].
    - apply lookup_add_pair.
    - apply lookup_add_pair_ne, N. }
  split.
  - intros l s. rewrite Hl. intros Hs.
    destruct (inv_line_key _ _ I l s Hs) as (p & q & ? & ? & ?).
    exists p, q. rewrite elem_of_snoc. auto.
  - intros l s u. rewrite Hl. intros Hs Hu.
    destruct (inv_line_in _ _ I l s u Hs Hu) as (p & q & ? & ? & ? & ?).
    exists p, q. rewrite elem_of_snoc. auto.
  - intros p q Hin Hpq. rewrite Hl. apply elem_of_snoc in Hin as [Hin|[= -> ->]].
    + apply (inv_line_has _ _ I p q Hin Hpq).
    + contradiction.
  - exact (qualified_visit _ _ _ _ (inv_three _ _ I) Hv).
  - intros x0 ys. rewrite Hlk. destruct (decide _) as [<-|N]; intros Hs.
    + exists a, c. rewrite elem_of_snoc. auto.
    + destruct (inv_vert_key _ _ I x0 ys Hs) as (p & q & ? & ? & ?).
      exists p, q. rewrite elem_of_snoc. auto.
  - intros x0 ys y0. rewrite Hlk. destruct (decide _) as [<-|N]; intros Hs Hu.
    + injection Hs as <-. apply elem_of_union in Hu as [Hu|Hu].
      * apply elem_of_union in Hu as [Hu|Hu].
        -- destruct (vertical_x_to_y self !! Point.x c) as [s|] eqn:E; simpl in Hu;
             [|set_solver].
           destruct (inv_vert_in _ _ I _ s y0 E Hu) as (p & q & ? & ? & ? & ?).
           exists p, q. rewrite elem_of_snoc. auto.
        -- apply elem_of_singleton in Hu. exists a, c. rewrite elem_of_snoc. auto.
      * apply elem_of_singleton in Hu. exists a, c. rewrite elem_of_snoc. auto.
    + destruct (inv_vert_in _ _ I x0 ys y0 Hs Hu) as (p & q & ? & ? & ? & ?).
      exists p, q. rewrite elem_of_snoc. auto.
  - intros p q Hin Hpq. rewrite Hlk. apply elem_of_snoc in Hin as [Hin|[= -> ->]].
    + destruct (inv_vert_has _ _ I p q Hin Hpq) as (s & Hs & Hp & Hq).
      destruct (decide _) as [_|N].
      * rewrite Hs. simpl. eexists. split; [reflexivity|]. set_solver.
      * eauto.
    + rewrite decide_True by reflexivity. eexists. split; [reflexivity|]. set_solver.
Qed.

Lemma Inv_visit tr self a c self' :
  Inv tr self → visit a c self = Ok self' → Inv (tr ++ [(a, c)]) self'.
Proof.
  destruct (decide (Point.x a = Point.x c)).
  - apply Inv_visit_vertical; assumption.
  - apply Inv_visit_sloped; assumption.
Qed.

Lemma visit_points a c self self' : visit a c self = Ok self' → points self' = points self.
Proof.
  intros Hv. destruct (decide (Point.x a = Point.x c)) as [E|N].
  - destruct (visit_vertical a c self E) as (st & Hv' & Hp & _). congruence.
  - destruct (visit_sloped a c self N) as (st & Hv' & Hp & _). congruence.
Qed.

Lemma Inv_for_each ps tr self self' :
  Inv tr self → for_each (λ pq, visit pq.1 pq.2) ps self = Ok self' →
  Inv (tr ++ ps) self' ∧ points self' = points self.
Proof.
  revert tr self. induction ps as [|[a c] ps IH]; intros tr self I; simpl.
  - intros [= <-]. rewrite app_nil_r. auto.
  - destruct (visit a c self) as [st|e] eqn:Hv; simpl; [|discriminate].
    intros Hf. destruct (IH (tr ++ [(a, c)]) st (Inv_visit _ _ _ _ _ I Hv) Hf) as [I' Hp].
    rewrite <- app_assoc in I'. split; [exact I'|].
    rewrite Hp. eapply visit_points, Hv.
Qed.

(** ** The state after the whole scan *)

Lemma iter_NoDup (O : IterOrder) `{Countable A} (s : gset A) : NoDup (iter s).
Proof. rewrite iter_perm. apply NoDup_elements. Qed.

Lemma elem_of_iter (O : IterOrder) `{Countable A} (s : gset A) a : a ∈ iter s ↔ a ∈ s.
Proof. rewrite iter_perm. apply elem_of_elements. Qed.

Lemma length_iter (O : IterOrder) `{Countable A} (s : gset A) : length (iter s) = size s.
Proof. rewrite iter_perm. reflexivity. Qed.

Lemma Complete_ordered_pairs (O : IterOrder) P : Complete P (ordered_pairs (iter P)).
Proof.
  split.
  - intros p q Hin. repeat split.
    + eapply elem_of_iter, elem_of_ordered_pairs_l, Hin.
    + eapply elem_of_iter, elem_of_ordered_pairs_r, Hin.
    + eapply ordered_pairs_ne; [apply iter_NoDup|exact Hin].
  - intros p q Hp Hq Hne. apply ordered_pairs_total; [| |assumption];
      apply elem_of_iter; assumption.
Qed.

Lemma Complete_app P1 P2 tr1 tr2 :
  P1 ⊆ P2 → Complete P1 tr1 → Complete P2 tr2 → Complete P2 (tr1 ++ tr2).
Proof.
  intros Hsub [A1 _] [A2 B2]. split.
  - intros p q [Hin|Hin]%elem_of_app.
    + destruct (A1 p q Hin) as (? & ? & ?). auto.
    + auto.
  - intros p q Hp Hq Hne. rewrite !elem_of_app.
    destruct (B2 p q Hp Hq Hne); auto.
Qed.

Section characterisation.
Context (P : gset Point.t) (tr : list (Point.t * Point.t)) (self : LineParser).
Context (I : Inv tr self) (C : Complete P tr).

Lemma char_line_dom l :
  is_Some (lines_to_points self !! l) ↔
  ∃ p q, p ∈ P ∧ q ∈ P ∧ Point.x p ≠ Point.x q ∧ through p q = l.
Proof.
  destruct C as [CA CB]. split.
  - intros [s Hs]. destruct (inv_line_key _ _ I l s Hs) as (p & q & Hin & Hx & Hl).
    destruct (CA p q Hin) as (? & ? & ?). eauto 10.
  - intros (p & q & Hp & Hq & Hx & <-).
    assert (Hne : p ≠ q) by congruence.
    destruct (CB p q Hp Hq Hne) as [Hin|Hin].
    + destruct (inv_line_has _ _ I p q Hin Hx) as (s & Hs & _). eauto.
    + destruct (inv_line_has _ _ I q p Hin (not_eq_sym Hx)) as (s & Hs & _).
      rewrite through_sym in Hs by assumption. eauto.
Qed.

(** The points stored for a line are the points of [P] on it. *)
Lemma char_line l s u :
  lines_to_points self !! l = Some s → u ∈ s ↔ u ∈ P ∧ Line.on l u.
Proof.
  destruct C as [CA CB]. intros Hs. split.
  - intros Hu. destruct (inv_line_in _ _ I l s u Hs Hu) as (p & q & Hin & Hx & <- & Hpq).
    destruct (CA p q Hin) as (? & ? & ?).
    destruct Hpq as [-> | ->]; split; auto using through_on_l, through_on_r.
  - intros [Hu Hon].
    destruct (inv_line_key _ _ I l s Hs) as (p & q & Hin & Hx & <-).
    destruct (inv_line_has _ _ I p q Hin Hx) as (s' & Hs' & Hp & Hq).
    rewrite Hs in Hs'. injection Hs' as <-.
    destruct (decide (u = p)) as [-> | Hne]; [assumption|].
    assert (Hux : Point.x u ≠ Point.x p).
    { intros E. apply Hne. eapply on_same_x; eauto using through_on_l. }
    assert (Hl : through u p = through p q).
    { apply on_through; auto using through_on_l. }
    destruct (CA p q Hin) as (Hp' & _ & _).
    destruct (CB u p Hu Hp' Hne) as [Hin'|Hin'].
    + destruct (inv_line_has _ _ I u p Hin' Hux) as (s' & Hs' & Hu' & _).
      rewrite Hl, Hs in Hs'. injection Hs' as <-. assumption.
    + destruct (inv_line_has _ _ I p u Hin' (not_eq_sym Hux)) as (s' & Hs' & _ & Hu').
      rewrite through_sym, Hl, Hs in Hs' by assumption.
      injection Hs' as <-. assumption.
Qed.

Lemma char_vert_dom x0 :
  is_Some (vertical_x_to_y self !! x0) ↔
  ∃ p q, p ∈ P ∧ q ∈ P ∧ p ≠ q ∧ Point.x p = x0 ∧ Point.x q = x0.
Proof.
  destruct C as [CA CB]. split.
  - intros [s Hs]. destruct (inv_vert_key _ _ I x0 s Hs) as (p & q & Hin & Hx & Hl).
    destruct (CA p q Hin) as (? & ? & ?). exists p, q. repeat split; congruence.
  - intros (p & q & Hp & Hq & Hne & Hpx & Hqx).
    destruct (CB p q Hp Hq Hne) as [Hin|Hin].
    + destruct (inv_vert_has _ _ I p q Hin) as (s & Hs & _); [congruence|].
      rewrite Hqx in Hs. eauto.
    + destruct (inv_vert_has _ _ I q p Hin) as (s & Hs & _); [congruence|].
      rewrite Hpx in Hs. eauto.
Qed.

(** The ordinates stored for an abscissa are those of the points of [P]
    with that abscissa. *)
Lemma char_vert x0 ys y0 :
  vertical_x_to_y self !! x0 = Some ys → y0 ∈ ys ↔ Point.mk x0 y0 ∈ P.
Proof.
  destruct C as [CA CB]. intros Hs. split.
  - intros Hu.
    destruct (inv_vert_in _ _ I x0 ys y0 Hs Hu) as (p & q & Hin & Hx & <- & Hpq).
    destruct (CA p q Hin) as (? & ? & ?).
    destruct Hpq as [-> | ->].
    + rewrite <- Hx. destruct p; assumption.
    + destruct q; assumption.
  - intros Hu. set (u := Point.mk x0 y0) in *.
    destruct (inv_vert_key _ _ I x0 ys Hs) as (p & q & Hin & Hx & Hq).
    destruct (inv_vert_has _ _ I p q Hin Hx) as (s' & Hs' & Hp1 & Hq1).
    rewrite Hq, Hs in Hs'. injection Hs' as <-.
    destruct (decide (u = p)) as [E | Hne].
    { rewrite <- E in Hp1. exact Hp1. }
    destruct (CA p q Hin) as (Hp' & _ & _).
    destruct (CB u p Hu Hp' Hne) as [Hin'|Hin'].
    + destruct (inv_vert_has _ _ I u p Hin') as (s' & Hs' & Hu' & _);
        [simpl; congruence|].
      rewrite Hx, Hq, Hs in Hs'. injection Hs' as <-. exact Hu'.
    + destruct (inv_vert_has _ _ I p u Hin') as (s' & Hs' & _ & Hu');
        [simpl; congruence|].
      simpl in Hs'. rewrite Hs in Hs'. injection Hs' as <-. exact Hu'.
Qed.
End characterisation.

(** Two complete scans of the same points end in the same accumulated state,
    whatever the order of their visits. *)
Lemma Inv_unique P tr1 tr2 st1 st2 :
  Inv tr1 st1 → Inv tr2 st2 → Complete P tr1 → Complete P tr2 →
  points st1 = points st2 → st1 = st2.
Proof.
  intros I1 I2 C1 C2 Hp.
  assert (Hl : lines_to_points st1 = lines_to_points st2).
  { apply map_eq. intros l.
    pose proof (char_line_dom P tr1 st1 I1 C1 l) as D1.
    pose proof (char_line_dom P tr2 st2 I2 C2 l) as D2.
    destruct (lines_to_points st1 !! l) as [s1|] eqn:E1,
             (lines_to_points st2 !! l) as [s2|] eqn:E2.
    - f_equal. apply set_eq. intros u.
      rewrite (char_line P tr1 st1 I1 C1 l s1 u E1), (char_line P tr2 st2 I2 C2 l s2 u E2).
      reflexivity.
    - exfalso. eapply is_Some_None. apply D2, D1. eauto.
    - exfalso. eapply is_Some_None. apply D1, D2. eauto.
    - reflexivity. }
  assert (Hv : vertical_x_to_y st1 = vertical_x_to_y st2).
  { apply map_eq. intros x0.
    pose proof (char_vert_dom P tr1 st1 I1 C1 x0) as D1.
    pose proof (char_vert_dom P tr2 st2 I2 C2 x0) as D2.
    destruct (vertical_x_to_y st1 !! x0) as [s1|] eqn:E1,
             (vertical_x_to_y st2 !! x0) as [s2|] eqn:E2.
    - f_equal. apply set_eq. intros u.
      rewrite (char_vert P tr1 st1 I1 C1 x0 s1 u E1), (char_vert P tr2 st2 I2 C2 x0 s2 u E2).
      reflexivity.
    - exfalso. eapply is_Some_None. apply D2, D1. eauto.
    - exfalso. eapply is_Some_None. apply D1, D2. eauto.
    - reflexivity. }
  assert (H3 : three_point_lines st1 = three_point_lines st2).
  { apply set_eq. intros l.
    rewrite (inv_three _ _ I1), (inv_three _ _ I2), Hl. reflexivity. }
  destruct st1, st2. simpl in *. congruence.
Qed.

(** ** The report *)

Lemma label_cons n g gs : label n (g :: gs) = (n, g) :: label (Datatypes.S n) gs.
Proof. reflexivity. Qed.

Lemma label_app n gs hs : label n (gs ++ hs) = label n gs ++ label (n + length gs) hs.
Proof.
  revert n. induction gs as [|g gs IH]; intros n; simpl.
  - rewrite Nat.add_0_r. reflexivity.
  - rewrite !label_cons, IH. simpl. rewrite Nat.add_succ_r. reflexivity.
Qed.

Lemma snd_label n gs : snd <$> label n gs = gs.
Proof. unfold label. apply snd_zip. rewrite length_seq. reflexivity. Qed.

Lemma fst_label n gs : fst <$> label n gs = seq n (length gs).
Proof. unfold label. apply fst_zip. rewrite length_seq. reflexivity. Qed.

Lemma float_in_range in_range q :
  float in_range q = if in_range q then Ok () else Raise OverflowError.
Proof. reflexivity. Qed.

Lemma Point_to_string_ok in_range p :
  Point.to_string in_range p = if point_ok in_range p then Ok () else Raise OverflowError.
Proof.
  unfold Point.to_string, point_ok, float.
  destruct (in_range (Point.x p)), (in_range (Point.y p)); reflexivity.
Qed.

Lemma Line_to_string_ok in_range l :
  Line.to_string in_range l
  = if in_range (Line.m l) && in_range (Line.b l) then Ok () else Raise OverflowError.
Proof.
  unfold Line.to_string, float.
  destruct (in_range (Line.m l)), (in_range (Line.b l)); reflexivity.
Qed.

Lemma write_points_for_each in_range pts acc :
  for_each (λ point return_line,
      Point.to_string in_range point;; Ok (return_line ++ [point])) pts acc
  = if forallb (point_ok in_range) pts then Ok (acc ++ pts) else Raise OverflowError.
Proof.
  revert acc. induction pts as [|p pts IH]; intros acc; simpl.
  - rewrite app_nil_r. reflexivity.
  - rewrite Point_to_string_ok. destruct (point_ok in_range p); simpl; [|reflexivity].
    rewrite IH, <- app_assoc. reflexivity.
Qed.

Lemma write_ordinates_for_each in_range x0 ys acc :
  for_each (λ y return_line,
      float in_range x0;; float in_range y;; Ok (return_line ++ [Point.mk x0 y])) ys acc
  = if forallb (λ y0, in_range x0 && in_range y0) ys
    then Ok (acc ++ (Point.mk x0 <$> ys)) else Raise OverflowError.
Proof.
  rewrite (for_each_ext _
             (λ y return_line,
                if in_range x0 && in_range y
                then Ok (return_line ++ [Point.mk x0 y]) else Raise OverflowError)).
  2:{ intros y line. unfold float. destruct (in_range x0), (in_range y); reflexivity. }
  revert acc. induction ys as [|y ys IH]; intros acc; simpl.
  - rewrite app_nil_r. reflexivity.
  - destruct (in_range x0 && in_range y); simpl; [|reflexivity].
    rewrite IH, <- app_assoc. reflexivity.
Qed.

Lemma report_sloped_for_each (O : IterOrder) in_range self ls acc n :
  (∀ l, l ∈ ls → is_Some (lines_to_points self !! l)) →
  for_each (λ line '(results, index),
      Line.to_string in_range line;;
      pts ← getitem (lines_to_points self) line;
      return_line ← write_points in_range (iter pts);
      Ok (results ++ [(index, return_line)], Datatypes.S index)) ls (acc, n)
  = if forallb (line_ok O in_range self) ls
    then Ok (acc ++ label n ((λ l, iter (default ∅ (lines_to_points self !! l))) <$> ls),
             (n + length ls)%nat)
    else Raise OverflowError.
Proof.
  revert acc n. induction ls as [|l ls IH]; intros acc n Hin; simpl.
  - rewrite app_nil_r, Nat.add_0_r. reflexivity.
  - destruct (Hin l) as [s Hs]; [left|].
    unfold line_ok at 1. rewrite Line_to_string_ok, Hs. simpl.
    destruct (in_range (Line.m l) && in_range (Line.b l)); simpl; [|reflexivity].
    rewrite (getitem_Some _ _ _ Hs). simpl.
    unfold write_points. rewrite write_points_for_each.
    destruct (forallb (point_ok in_range) (iter s)); simpl; [|reflexivity].
    rewrite IH by (intros; apply Hin; right; assumption).
    destruct (forallb _ ls); [|reflexivity].
    rewrite label_cons, <- app_assoc, Nat.add_succ_r. reflexivity.
Qed.

Lemma report_vertical_for_each (O : IterOrder) in_range self ls acc n :
  (∀ x0, x0 ∈ ls → is_Some (vertical_x_to_y self !! x0)) →
  for_each (λ x0 '(results, index),
      y_list ← getitem (vertical_x_to_y self) x0;
      if decide (3 ≤ size y_list)%nat then
        return_line ← write_ordinates in_range x0 (iter y_list);
        Ok (results ++ [(index, return_line)], Datatypes.S index)
      else Ok (results, index)) ls (acc, n)
  = if forallb (abscissa_ok O in_range self) ls
    then Ok (acc ++ label n (omap (vertical_group O self) ls),
             (n + length (omap (vertical_group O self) ls))%nat)
    else Raise OverflowError.
Proof.
  revert acc n. induction ls as [|x0 ls IH]; intros acc n Hin; simpl.
  - rewrite app_nil_r, Nat.add_0_r. reflexivity.
  - destruct (Hin x0) as [s Hs]; [left|].
    assert (Hg : vertical_group O self x0 =
              if decide (3 ≤ size s)%nat then Some (Point.mk x0 <$> iter s) else None).
    { unfold vertical_group. rewrite Hs. reflexivity. }
    assert (Ha : abscissa_ok O in_range self x0 =
              if decide (3 ≤ size s)%nat
              then forallb (λ y0, in_range x0 && in_range y0) (iter s) else true).
    { unfold abscissa_ok. rewrite Hs. reflexivity. }
    rewrite (getitem_Some _ _ _ Hs), Hg, Ha. simpl.
    destruct (decide _); simpl.
    + unfold write_ordinates. rewrite write_ordinates_for_each.
      destruct (forallb _ (iter s)); simpl; [|reflexivity].
      rewrite IH by (intros; apply Hin; right; assumption).
      destruct (forallb _ ls); [|reflexivity].
      rewrite label_cons, <- app_assoc. simpl. rewrite Nat.add_succ_r. reflexivity.
    + apply IH. intros; apply Hin; right; assumption.
Qed.

Lemma convertible_forallb (O : IterOrder) in_range self :
  forallb (line_ok O in_range self) (iter (three_point_lines self))
  && forallb (abscissa_ok O in_range self) (iter (dom (vertical_x_to_y self))) = true
  ↔ convertible in_range self.
Proof.
  rewrite andb_true_iff, !forallb_forall. unfold convertible. split.
  - intros [Hl Hv]. split.
    + intros l Hin. specialize (Hl l). rewrite <- list_elem_of_In, elem_of_iter in Hl.
      specialize (Hl Hin). unfold line_ok in Hl.
      apply andb_true_iff in Hl as [[Hm Hb]%andb_true_iff Hpts].
      split; [exact Hm|]. split; [exact Hb|].
      intros p Hp. rewrite forallb_forall in Hpts. apply Hpts.
      apply list_elem_of_In, elem_of_iter, Hp.
    + intros x0 ys Hys Hsz. specialize (Hv x0).
      rewrite <- list_elem_of_In, elem_of_iter, elem_of_dom in Hv.
      specialize (Hv (ex_intro _ ys Hys)). unfold abscissa_ok in Hv.
      rewrite Hys in Hv. simpl in Hv. rewrite decide_True in Hv by exact Hsz.
      rewrite forallb_forall in Hv.
      assert (Hall : ∀ y0, y0 ∈ ys → in_range x0 = true ∧ in_range y0 = true).
      { intros y0 Hy0. apply andb_true_iff, Hv, list_elem_of_In, elem_of_iter, Hy0. }
      split; [|intros y0 Hy0; apply (Hall y0 Hy0)].
      destruct (size_pos_elem_of ys) as [y0 Hy0]; [lia|]. apply (Hall y0 Hy0).
  - intros [Hl Hv]. split.
    + intros l Hin%list_elem_of_In%elem_of_iter.
      destruct (Hl l Hin) as (Hm & Hb & Hpts). unfold line_ok.
      rewrite Hm, Hb. simpl. apply forallb_forall.
      intros p Hp%list_elem_of_In%elem_of_iter. auto.
    + intros x0 Hin%list_elem_of_In%elem_of_iter%elem_of_dom. destruct Hin as [ys Hys].
      unfold abscissa_ok. rewrite Hys. simpl.
      destruct (decide _) as [Hsz|]; [|reflexivity].
      destruct (Hv x0 ys Hys Hsz) as [Hx Hy].
      apply forallb_forall. intros y0 Hy0%list_elem_of_In%elem_of_iter.
      rewrite Hx, (Hy y0 Hy0). reflexivity.
Qed.

Lemma reports_impl in_range self outcome (P Q : list group → Prop) :
  reports in_range self outcome P → (∀ results, P results → Q results) →
  reports in_range self outcome Q.
Proof.
  intros [(Hc & results & E & HP)|[Hn E]] HPQ.
  - left. eauto.
  - right. auto.
Qed.

(** The report on a state whose qualified lines all have an entry: the
    labelled sloped groups followed by the vertical groups, or OverflowError. *)
Lemma report_reports (O : IterOrder) in_range self :
  (∀ l, l ∈ three_point_lines self → is_Some (lines_to_points self !! l)) →
  reports in_range self (report O in_range self)
    (λ results, results = label 1 (sloped_groups O self ++ vertical_groups O self)).
Proof.
  intros Hkeys. pose proof (convertible_forallb O in_range self) as Hconv.
  unfold report, report_sloped, report_vertical.
  rewrite report_sloped_for_each by (intros l Hl%elem_of_iter; auto).
  destruct (forallb (line_ok O in_range self) _); simpl in *.
  - rewrite report_vertical_for_each
      by (intros x0 Hx%elem_of_iter%elem_of_dom; exact Hx).
    destruct (forallb (abscissa_ok O in_range self) _); simpl in *.
    + left. split; [apply Hconv; reflexivity|]. eexists. split; [reflexivity|].
      unfold sloped_groups, vertical_groups. rewrite label_app, length_fmap. reflexivity.
    + right. split; [|reflexivity]. intros Hc%Hconv. discriminate.
  - right. split; [|reflexivity]. intros Hc%Hconv. discriminate.
Qed.

Lemma forallb_perm {A} (f : A → bool) (l1 l2 : list A) :
  l1 ≡ₚ l2 → forallb f l1 = forallb f l2.
Proof.
  induction 1 as [|x l1 l2 _ IH|x y l|l1 l2 l3 _ IH1 _ IH2]; simpl.
  - reflexivity.
  - rewrite IH. reflexivity.
  - destruct (f x), (f y); reflexivity.
  - congruence.
Qed.

Lemma forallb_ordinates in_range x0 (ys : list Qc) :
  forallb (λ y0, in_range x0 && in_range y0) ys
  = forallb (point_ok in_range) (Point.mk x0 <$> ys).
Proof. induction ys as [|y ys IH]; simpl; [reflexivity|]. rewrite IH. reflexivity. Qed.

Lemma line_ok_groups (O : IterOrder) in_range self ls :
  forallb (line_ok O in_range self) ls
  = forallb (λ l, in_range (Line.m l) && in_range (Line.b l)) ls
    && forallb (forallb (point_ok in_range))
         ((λ l, iter (default ∅ (lines_to_points self !! l))) <$> ls).
Proof.
  induction ls as [|l ls IH]; simpl; [reflexivity|]. rewrite IH. unfold line_ok.
  destruct (in_range (Line.m l) && in_range (Line.b l)); simpl; [|reflexivity].
  destruct (forallb (point_ok in_range) _); simpl; [reflexivity|].
  rewrite andb_false_r. reflexivity.
Qed.

Lemma abscissa_ok_groups (O : IterOrder) in_range self xs :
  forallb (abscissa_ok O in_range self) xs
  = forallb (forallb (point_ok in_range)) (omap (vertical_group O self) xs).
Proof.
  induction xs as [|x0 xs IH]; simpl; [reflexivity|]. rewrite IH.
  unfold abscissa_ok, vertical_group.
  destruct (decide _); simpl; [|reflexivity].
  rewrite forallb_ordinates. reflexivity.
Qed.

(** The report by what it writes: it raises OverflowError exactly when the
    slope or the intercept of a qualified line, or a coordinate of a point of
    a group, is out of range. *)
Lemma report_outcome (O : IterOrder) in_range self :
  (∀ l, l ∈ three_point_lines self → is_Some (lines_to_points self !! l)) →
  report O in_range self
  = if forallb (λ l, in_range (Line.m l) && in_range (Line.b l))
         (iter (three_point_lines self))
       && forallb (forallb (point_ok in_range))
            (sloped_groups O self ++ vertical_groups O self)
    then Ok (label 1 (sloped_groups O self ++ vertical_groups O self))
    else Raise OverflowError.
Proof.
  intros Hkeys. unfold report, report_sloped, report_vertical.
  rewrite report_sloped_for_each by (intros l Hl%elem_of_iter; auto).
  rewrite line_ok_groups, forallb_app. fold (sloped_groups O self).
  destruct (forallb (λ l, in_range (Line.m l) && in_range (Line.b l)) _); simpl;
    [|reflexivity].
  destruct (forallb (forallb (point_ok in_range)) (sloped_groups O self)); simpl;
    [|reflexivity].
  rewrite report_vertical_for_each
    by (intros x0 Hx%elem_of_iter%elem_of_dom; exact Hx).
  rewrite abscissa_ok_groups. fold (vertical_groups O self).
  destruct (forallb _ (vertical_groups O self)); simpl; [|reflexivity].
  rewrite label_app. unfold sloped_groups at 3. rewrite length_fmap. reflexivity.
Qed.

(** The engine on records [records], from an object whose accumulated state
    came from the visits [tr0]: the scan returns, and the report gives the
    labelled sloped groups followed by the vertical groups of the state the
    scan leaves, or OverflowError. *)
Lemma engine_returns (O : IterOrder) in_range records tr0 self0 :
  Inv tr0 self0 →
  ∃ self',
    get_3_point_lines O in_range records self0 = Ok (self', report O in_range self') ∧
    reports in_range self' (report O in_range self')
      (λ results, results = label 1 (sloped_groups O self' ++ vertical_groups O self')) ∧
    get_lines_from_points O (parse_points_from_csv records self0) = Ok self' ∧
    points self' = points self0 ∪ list_to_set records ∧
    Inv (tr0 ++ ordered_pairs (iter (points self'))) self'.
Proof.
  intros I0. unfold get_3_point_lines.
  set (self1 := parse_points_from_csv records self0).
  assert (Hp1 : points self1 = points self0 ∪ list_to_set records).
  { unfold self1, parse_points_from_csv. simpl. generalize (points self0).
    induction records as [|r rs IH]; intros s; simpl.
    - set_solver.
    - rewrite IH. set_solver. }
  assert (I1 : Inv tr0 self1).
  { destruct I0. split; assumption. }
  unfold get_lines_from_points. rewrite scan_pairs.
  destruct (for_each_visit_total (ordered_pairs (iter (points self1))) self1) as [self' Hs].
  destruct (Inv_for_each _ _ _ _ I1 Hs) as [I' Hp']. rewrite <- Hp' in I'.
  exists self'. rewrite Hs. simpl.
  split; [reflexivity|]. split; [|split; [reflexivity|split; [congruence|exact I']]].
  apply report_reports.
  intros l (s & -> & _)%(inv_three _ _ I'). eauto.
Qed.

Lemma engine_fresh (O : IterOrder) in_range records :
  ∃ self',
    get_3_point_lines O in_range records fresh = Ok (self', report O in_range self') ∧
    reports in_range self' (report O in_range self')
      (λ results, results = label 1 (sloped_groups O self' ++ vertical_groups O self')) ∧
    points self' = list_to_set records ∧
    Inv (ordered_pairs (iter (points self'))) self' ∧
    Complete (points self') (ordered_pairs (iter (points self'))).
Proof.
  destruct (engine_returns O in_range records [] fresh (Inv_fresh ∅))
    as (self' & H & Hrep & _ & Hp & I).
  exists self'. split; [exact H|]. split; [exact Hrep|].
  split; [rewrite Hp; simpl; set_solver|].
  split; [exact I|apply Complete_ordered_pairs].
Qed.

(** ** The groups of the result *)

Lemma elem_of_label n gs index pts : (index, pts) ∈ label n gs → pts ∈ gs.
Proof.
  intros Hin. rewrite <- (snd_label n gs). apply list_elem_of_fmap.
  exists (index, pts). auto.
Qed.

Lemma elem_of_sloped_groups (O : IterOrder) self pts :
  (∀ l, l ∈ three_point_lines self ↔
     ∃ s, lines_to_points self !! l = Some s ∧ (3 ≤ size s)%nat) →
  pts ∈ sloped_groups O self ↔
  ∃ l s, lines_to_points self !! l = Some s ∧ (3 ≤ size s)%nat ∧ pts = iter s.
Proof.
  intros H3. unfold sloped_groups. rewrite list_elem_of_fmap. split.
  - intros (l & -> & Hl). apply elem_of_iter, H3 in Hl as (s & Hs & Hsz).
    exists l, s. rewrite Hs. auto.
  - intros (l & s & Hs & Hsz & ->). exists l. rewrite Hs. split; [reflexivity|].
    apply elem_of_iter, H3. eauto.
Qed.

Lemma elem_of_vertical_groups (O : IterOrder) self pts :
  pts ∈ vertical_groups O self ↔
  ∃ x0 ys, vertical_x_to_y self !! x0 = Some ys ∧ (3 ≤ size ys)%nat ∧
           pts = Point.mk x0 <$> iter ys.
Proof.
  unfold vertical_groups. rewrite list_elem_of_omap. split.
  - intros (x0 & Hx & Hg). apply elem_of_iter, elem_of_dom in Hx as [ys Hys].
    unfold vertical_group in Hg. rewrite Hys in Hg. simpl in Hg.
    destruct (decide _); [|discriminate]. injection Hg as <-. eauto.
  - intros (x0 & ys & Hys & Hsz & ->). exists x0. split.
    + apply elem_of_iter, elem_of_dom. eauto.
    + unfold vertical_group. rewrite Hys. simpl. rewrite decide_True by assumption.
      reflexivity.
Qed.

Lemma elem_of_mk_iter (O : IterOrder) x0 (ys : gset Qc) p :
  p ∈ Point.mk x0 <$> iter ys ↔ Point.x p = x0 ∧ Point.y p ∈ ys.
Proof.
  rewrite list_elem_of_fmap. split.
  - intros (y0 & -> & Hy). simpl. split; [reflexivity|]. apply elem_of_iter in Hy. exact Hy.
  - intros [<- Hy]. exists (Point.y p). split; [destruct p; reflexivity|].
    apply elem_of_iter. exact Hy.
Qed.

Lemma mk_iter_NoDup (O : IterOrder) x0 (ys : gset Qc) : NoDup (Point.mk x0 <$> iter ys).
Proof. apply NoDup_fmap_2; [intros ? ? [= ->]; reflexivity | apply iter_NoDup]. Qed.

Lemma on_collinear l a c d :
  Line.on l a → Line.on l c → Line.on l d → collinear a c d.
Proof. unfold Line.on, collinear. intros -> -> ->. ring. Qed.

Lemma same_x_collinear a c d :
  Point.x c = Point.x a → Point.x d = Point.x a → collinear a c d.
Proof. unfold collinear. intros -> ->. ring. Qed.


Lemma collinear_on l a c d :
  Line.on l a → Line.on l c → a ≠ c → collinear a c d ↔ Line.on l d.
Proof.
  intros Ha Hc Hne.
  assert (Hx : Point.x c ≠ Point.x a).
  { intros E. apply Hne. symmetry. eapply on_same_x; eauto. }
  assert (Hx' : Point.x c - Point.x a ≠ 0) by (rewrite Qc_minus_eq_0; exact Hx).
  unfold collinear. unfold Line.on in *. rewrite Ha, Hc. split.
  - intros H.
    assert (E : (Point.x c - Point.x a) * (Point.y d - (Line.m l * Point.x d + Line.b l)) = 0).
    { transitivity ((Point.x c - Point.x a) * (Point.y d - (Line.m l * Point.x a + Line.b l))
                    - (Line.m l * Point.x c + Line.b l - (Line.m l * Point.x a + Line.b l))
                      * (Point.x d - Point.x a)); [ring|].
      rewrite H. ring. }
    apply Qcmult_integral in E as [E|E]; [contradiction|].
    exact (proj1 (Qc_minus_eq_0 _ _) E).
  - intros ->. ring.
Qed.

Lemma collinear_same_x a c d :
  Point.x a = Point.x c → a ≠ c → collinear a c d ↔ Point.x d = Point.x a.
Proof.
  intros Hx Hne.
  assert (Hy : Point.y c - Point.y a ≠ 0).
  { rewrite Qc_minus_eq_0. intros E. apply Hne. destruct a, c; simpl in *. congruence. }
  unfold collinear. rewrite <- Hx. split.
  - intros H.
    assert (E : (Point.y c - Point.y a) * (Point.x d - Point.x a) = 0).
    { rewrite <- H. ring. }
    apply Qcmult_integral in E as [E|E]; [contradiction|].
    exact (proj1 (Qc_minus_eq_0 _ _) E).
  - intros ->. ring.
Qed.


(** ** Independence of the iteration order *)

Lemma group_sets_label n gs :
  group_sets (label n gs) = list_to_set (list_to_set <$> gs).
Proof.
  unfold group_sets. f_equal. rewrite <- (snd_label n gs) at 2.
  rewrite <- list_fmap_compose. reflexivity.
Qed.

Lemma list_to_set_iter (O : IterOrder) `{Countable A} (s : gset A) :
  list_to_set (iter s) = s.
Proof. apply set_eq. intros a. rewrite elem_of_list_to_set. apply elem_of_iter. Qed.

Lemma list_to_set_mk_iter (O : IterOrder) x0 (ys : gset Qc) :
  list_to_set (Point.mk x0 <$> iter ys) = (set_map (Point.mk x0) ys : gset Point.t).
Proof.
  apply set_eq. intros p. rewrite elem_of_list_to_set, elem_of_mk_iter, elem_of_map.
  split.
  - intros [<- Hy]. exists (Point.y p). split; [destruct p; reflexivity|exact Hy].
  - intros (y0 & -> & Hy). auto.
Qed.

Lemma elem_of_group_sets (O : IterOrder) self n g :
  (∀ l, l ∈ three_point_lines self ↔
     ∃ s, lines_to_points self !! l = Some s ∧ (3 ≤ size s)%nat) →
  g ∈ group_sets (label n (sloped_groups O self ++ vertical_groups O self))
  ↔ state_group self g.
Proof.
  intros H3. rewrite group_sets_label, elem_of_list_to_set, list_elem_of_fmap.
  unfold state_group. split.
  - intros (pts & -> & [Hin|Hin]%elem_of_app).
    + apply (elem_of_sloped_groups O self pts H3) in Hin as (l & s & Hs & Hsz & ->).
      left. exists l. rewrite list_to_set_iter. auto.
    + apply elem_of_vertical_groups in Hin as (x0 & ys & Hys & Hsz & ->).
      right. exists x0, ys. rewrite list_to_set_mk_iter. auto.
  - intros [(l & Hs & Hsz)|(x0 & ys & Hys & Hsz & ->)].
    + exists (iter g). rewrite list_to_set_iter. split; [reflexivity|].
      apply elem_of_app. left. apply (elem_of_sloped_groups O self _ H3). eauto.
    + exists (Point.mk x0 <$> iter ys). rewrite list_to_set_mk_iter. split; [reflexivity|].
      apply elem_of_app. right. apply elem_of_vertical_groups. eauto.
Qed.

(** Under two iteration orders the report ends the same way on a state
    whose qualified lines are those with 3 points or more. *)
Lemma report_agree (O1 O2 : IterOrder) in_range self :
  qualified self →
  agree in_range self (report O1 in_range self) (report O2 in_range self).
Proof.
  intros Q.
  assert (Hkeys : ∀ l, l ∈ three_point_lines self → is_Some (lines_to_points self !! l)).
  { intros l (s & -> & _)%Q. eauto. }
  destruct (report_reports O1 in_range self Hkeys) as [(Hc & r1 & E1 & ->)|[Hn E1]];
    destruct (report_reports O2 in_range self Hkeys) as [(Hc' & r2 & E2 & ->)|[Hn' E2]];
    try contradiction.
  - left. split; [exact Hc|]. eexists _, _. split; [exact E1|]. split; [exact E2|].
    apply set_eq. intros g.
    rewrite (elem_of_group_sets O1 self 1 g Q), (elem_of_group_sets O2 self 1 g Q).
    reflexivity.
  - right. auto.
Qed.


(** ** State kept on the object *)



(** ** The qualified-line shortcut *)


(** ** Vertical lines *)

Lemma size_two_elem_of `{Countable A} (X : gset A) :
  (2 ≤ size X)%nat ↔ ∃ p q, p ∈ X ∧ q ∈ X ∧ p ≠ q.
Proof.
  split.
  - intros Hsz. destruct (size_pos_elem_of X) as [p Hp]; [lia|].
    destruct (size_pos_elem_of (X ∖ {[p]})) as [q Hq].
    { rewrite size_difference, size_singleton by set_solver. lia. }
    exists p, q. set_solver.
  - intros (p & q & Hp & Hq & Hne).
    transitivity (size ({[p; q]} : gset A)).
    + rewrite size_union, !size_singleton by set_solver. lia.
    + apply subseteq_size. set_solver.
Qed.

Lemma size_of_list `{Countable A} (X : gset A) (l : list A) :
  NoDup l → (∀ a, a ∈ l ↔ a ∈ X) → size X = length l.
Proof.
  intros Hnd Hl. rewrite <- (size_list_to_set (C := gset A) l Hnd). f_equal.
  apply set_eq. intros a. rewrite elem_of_list_to_set. symmetry. apply Hl.
Qed.


(** ** Small inputs *)

Lemma iter_empty (O : IterOrder) `{Countable A} : iter (∅ : gset A) = [].
Proof. apply Permutation_nil_r. rewrite iter_perm, elements_empty. reflexivity. Qed.

Lemma iter_singleton (O : IterOrder) `{Countable A} (a : A) : iter ({[a]} : gset A) = [a].
Proof. apply Permutation_singleton_r. rewrite iter_perm, elements_singleton. reflexivity. Qed.

(** Every group of a complete scan: distinct points of [P], 3 or more. *)
Lemma group_within (O : IterOrder) P tr self pts :
  Inv tr self → Complete P tr →
  pts ∈ sloped_groups O self ++ vertical_groups O self →
  NoDup pts ∧ (3 ≤ length pts)%nat ∧ ∀ p, p ∈ pts → p ∈ P.
Proof.
  intros I C [Hin|Hin]%elem_of_app.
  - apply (elem_of_sloped_groups O self pts (inv_three _ _ I)) in Hin
      as (l & s & Hs & Hsz & ->).
    split; [apply iter_NoDup|]. split; [rewrite length_iter; exact Hsz|].
    intros p Hp%elem_of_iter. apply (char_line _ _ _ I C l s p Hs) in Hp as [Hp _]. exact Hp.
  - apply elem_of_vertical_groups in Hin as (x0 & ys & Hys & Hsz & ->).
    split; [apply mk_iter_NoDup|]. split; [rewrite length_fmap, length_iter; exact Hsz|].
    intros p [<- Hp]%elem_of_mk_iter. apply (char_vert _ _ _ I C _ ys _ Hys) in Hp.
    destruct p; exact Hp.
Qed.

Lemma three_points_size (P : gset Point.t) a c d :
  a ≠ c → a ≠ d → c ≠ d → (∀ p, p ∈ P ↔ p = a ∨ p = c ∨ p = d) → size P = 3%nat.
Proof.
  intros Hac Had Hcd HP. apply (size_of_list P [a; c; d]).
  - repeat constructor; set_solver.
  - intros p. rewrite HP. set_solver.
Qed.



(** ** The theorems at concrete inputs *)

Lemma pt_ne (a1 b1 a2 b2 : Z) :
  (a1, b1) ≠ (a2, b2) → pt a1 b1 ≠ pt a2 b2.
Proof.
  intros Hne E. apply Hne.
  assert (Hx : Qc_of_Z a1 = Qc_of_Z a2) by exact (f_equal Point.x E).
  assert (Hy : Qc_of_Z b1 = Qc_of_Z b2) by exact (f_equal Point.y E).
  apply (f_equal (λ q : Qc, Qnum q)) in Hx, Hy. simpl in Hx, Hy. congruence.
Qed.


(** Three distinct points: the pairs at positions (0,1), (0,2), (1,2). *)
Lemma C6_pair_enumeration_witness :
  ∃ tr,
    visited_pairs [pt 0 0; pt 1 1; pt 2 5] = Ok tr ∧
    (∀ self, scan visit [pt 0 0; pt 1 1; pt 2 5] self
             = for_each (λ pq, visit pq.1 pq.2) tr self) ∧
    length tr = (length [pt 0 0; pt 1 1; pt 2 5]
                 * (length [pt 0 0; pt 1 1; pt 2 5] - 1) / 2)%nat ∧
    NoDup tr ∧
    (∀ pt1 pt2, (pt1, pt2) ∈ tr ↔
       ∃ i j, (i < j)%nat ∧ [pt 0 0; pt 1 1; pt 2 5] !! i = Some pt1
              ∧ [pt 0 0; pt 1 1; pt 2 5] !! j = Some pt2) ∧
    (∀ pt1 pt2, pt1 ∈ [pt 0 0; pt 1 1; pt 2 5] → pt2 ∈ [pt 0 0; pt 1 1; pt 2 5] →
       pt1 ≠ pt2 →
       ((pt1, pt2) ∈ tr ∨ (pt2, pt1) ∈ tr) ∧ ¬ ((pt1, pt2) ∈ tr ∧ (pt2, pt1) ∈ tr)).
Proof.
  apply (C6_pair_enumeration [pt 0 0; pt 1 1; pt 2 5]).
  repeat constructor; rewrite ?elem_of_cons, elem_of_nil;
    intros H; repeat destruct H as [H|H]; try exact H;
    revert H; apply pt_ne; discriminate.
Defined.



(** ** Scenarios *)

(** (0,0), (1,1), (2,2), (0,5), (5,0): one group, the line y = x. *)
Example mixed_scenario :
  show (get_3_point_lines canonical_order double_range [pt 0 0; pt 1 1; pt 2 2; pt 0 5; pt 5 0] fresh)
  = Some [(1%nat, show_point <$> [pt 0 0; pt 1 1; pt 2 2])].
Proof. vm_compute. reflexivity. Qed.

(** (2,1), (2,5), (2,9), (3,0): one group, the three points with x = 2. *)
Example vertical_scenario :
  show (get_3_point_lines canonical_order double_range [pt 2 1; pt 2 5; pt 2 9; pt 3 0] fresh)
  = Some [(1%nat, show_point <$> [pt 2 9; pt 2 5; pt 2 1])].
Proof. vm_compute. reflexivity. Qed.

(** (0.1, 0.2), (0.2, 0.4), (0.3, 0.6) are found collinear. *)
Example decimal_scenario :
  show (get_3_point_lines canonical_order double_range
          [Point.mk (Q2Qc (1 # 10)) (Q2Qc (2 # 10));
           Point.mk (Q2Qc (2 # 10)) (Q2Qc (4 # 10));
           Point.mk (Q2Qc (3 # 10)) (Q2Qc (6 # 10))] fresh)
  = Some [(1%nat, [((1%Z, 5%positive), (2%Z, 5%positive));
                   ((3%Z, 10%positive), (3%Z, 5%positive));
                   ((1%Z, 10%positive), (1%Z, 5%positive))])].
Proof. vm_compute. reflexivity. Qed.

(** Exactly 2 collinear points give no group. *)
Example two_points_scenario :
  show (get_3_point_lines canonical_order double_range [pt 0 5; pt 5 0] fresh) = Some [].
Proof. vm_compute. reflexivity. Qed.

(** (0,0), (10^-200, 10^200), (2·10^-200, 2·10^200): every coordinate
    converts, the slope 10^400 of the line does not, and the call to
    [line.to_string()], whose string is not used, raises OverflowError. *)
Example steep_line_scenario :
  forallb (point_ok double_range)
    [pt 0 0;
     Point.mk (Q2Qc (1 # 10 ^ 200)) (Qc_of_Z (10 ^ 200));
     Point.mk (Q2Qc (2 # 10 ^ 200)) (Qc_of_Z (2 * 10 ^ 200))] = true ∧
  ∃ self',
    get_3_point_lines canonical_order double_range
      [pt 0 0;
       Point.mk (Q2Qc (1 # 10 ^ 200)) (Qc_of_Z (10 ^ 200));
       Point.mk (Q2Qc (2 # 10 ^ 200)) (Qc_of_Z (2 * 10 ^ 200))] fresh
      = Ok (self', Raise OverflowError) ∧
    size (three_point_lines self') = 1%nat.
Proof.
  split; [vm_compute; reflexivity|].
  assert (H : match get_3_point_lines canonical_order double_range
                      [pt 0 0;
                       Point.mk (Q2Qc (1 # 10 ^ 200)) (Qc_of_Z (10 ^ 200));
                       Point.mk (Q2Qc (2 # 10 ^ 200)) (Qc_of_Z (2 * 10 ^ 200))] fresh with
              | Ok (self', Raise OverflowError) => size (three_point_lines self') =? 1
              | _ => false
              end%nat = true) by (vm_compute; reflexivity).
  destruct (get_3_point_lines _ _ _ _) as [[self' [results|[]]]|e]; try discriminate H.
  exists self'. split; [reflexivity|]. apply Nat.eqb_eq, H.
Qed.

(** * Further properties of the engine *)

(** ** What is reported *)

Lemma elem_of_label_2 n gs pts : pts ∈ gs → ∃ index, (index, pts) ∈ label n gs.
Proof.
  intros Hin. rewrite <- (snd_label n gs) in Hin.
  apply list_elem_of_fmap in Hin as ([index pts'] & -> & Hin). eauto.
Qed.

Lemma size_three_elem_of `{Countable A} (X : gset A) p q r :
  p ∈ X → q ∈ X → r ∈ X → p ≠ q → p ≠ r → q ≠ r → (3 ≤ size X)%nat.
Proof.
  intros Hp Hq Hr Hpq Hpr Hqr.
  transitivity (size (list_to_set [p; q; r] : gset A)).
  - rewrite size_list_to_set; [reflexivity|]. repeat constructor; set_solver.
  - apply subseteq_size. set_solver.
Qed.

(** A list without repeats of 3 elements or more has two different elements
    besides any given one. *)
Lemma two_others {A} (l : list A) p :
  NoDup l → (3 ≤ length l)%nat → p ∈ l →
  ∃ c d, c ∈ l ∧ d ∈ l ∧ p ≠ c ∧ p ≠ d ∧ c ≠ d.
Proof.
  intros Hnd Hlen Hp.
  destruct l as [|u [|v [|w l]]]; simpl in Hlen; try lia.
  apply NoDup_cons in Hnd as [Hu Hnd]. apply NoDup_cons in Hnd as [Hv Hnd].
  apply NoDup_cons in Hnd as [Hw _].
  apply not_elem_of_cons in Hu as [Huv Hu]. apply not_elem_of_cons in Hu as [Huw Hu].
  apply not_elem_of_cons in Hv as [Hvw Hv].
  rewrite !elem_of_cons in Hp. destruct Hp as [-> | [-> | [-> | Hp]]].
  - exists v, w. rewrite !elem_of_cons. auto 10.
  - exists u, w. rewrite !elem_of_cons. auto 10.
  - exists u, v. rewrite !elem_of_cons. auto 10.
  - exists u, v. rewrite !elem_of_cons. repeat split; auto; intros ->; contradiction.
Qed.

(** Every group of a complete scan lies on a sloped line or on a vertical. *)
Lemma group_on_line (O : IterOrder) P tr self pts :
  Inv tr self → Complete P tr →
  pts ∈ sloped_groups O self ++ vertical_groups O self →
  (∃ l, ∀ p, p ∈ pts → Line.on l p) ∨ (∃ x0, ∀ p, p ∈ pts → Point.x p = x0).
Proof.
  intros I C [Hin|Hin]%elem_of_app.
  - apply (elem_of_sloped_groups O self pts (inv_three _ _ I)) in Hin
      as (l & s & Hs & Hsz & ->).
    left. exists l. intros p Hp%elem_of_iter.
    apply (char_line _ _ _ I C l s p Hs) in Hp as [_ Hp]. exact Hp.
  - apply elem_of_vertical_groups in Hin as (x0 & ys & Hys & Hsz & ->).
    right. exists x0. intros p [Hx _]%elem_of_mk_iter. exact Hx.
Qed.

(** Three different collinear points of a complete scan are in one group. *)
Lemma triple_in_group (O : IterOrder) P tr self a c d :
  Inv tr self → Complete P tr →
  a ∈ P → c ∈ P → d ∈ P → a ≠ c → a ≠ d → c ≠ d → collinear a c d →
  ∃ pts, pts ∈ sloped_groups O self ++ vertical_groups O self ∧
         a ∈ pts ∧ c ∈ pts ∧ d ∈ pts.
Proof.
  intros I C Ha Hc Hd Hac Had Hcd Hcol.
  destruct (decide (Point.x a = Point.x c)) as [Hx|Hx].
  - assert (Hxd : Point.x d = Point.x a) by (apply (collinear_same_x a c d); assumption).
    destruct (proj2 (char_vert_dom _ _ _ I C (Point.x a))) as [ys Hys].
    { exists a, c. auto. }
    assert (Hin : ∀ p, p ∈ P → Point.x p = Point.x a → Point.y p ∈ ys).
    { intros p Hp Hpx. apply (char_vert _ _ _ I C _ ys _ Hys).
      rewrite <- Hpx. destruct p; exact Hp. }
    assert (Hne : ∀ p q : Point.t, p ≠ q → Point.x p = Point.x a → Point.x q = Point.x a →
              Point.y p ≠ Point.y q).
    { intros [px py] [qx qy] Hpq Hp Hq Hy. simpl in *. apply Hpq. congruence. }
    assert (Hsz : (3 ≤ size ys)%nat).
    { apply (size_three_elem_of ys (Point.y a) (Point.y c) (Point.y d)); auto. }
    exists (Point.mk (Point.x a) <$> iter ys). split.
    { apply elem_of_app. right. apply elem_of_vertical_groups. eauto. }
    rewrite !elem_of_mk_iter. auto 10.
  - set (l := through a c).
    assert (Hla : Line.on l a) by (apply through_on_l, Hx).
    assert (Hlc : Line.on l c) by (apply through_on_r, Hx).
    assert (Hld : Line.on l d) by (apply (collinear_on l a c d); assumption).
    destruct (proj2 (char_line_dom _ _ _ I C l)) as [s Hs].
    { exists a, c. auto. }
    assert (Hin : ∀ p, p ∈ P → Line.on l p → p ∈ s).
    { intros p Hp Hlp. apply (char_line _ _ _ I C l s p Hs). auto. }
    assert (Hsz : (3 ≤ size s)%nat).
    { apply (size_three_elem_of s a c d); auto. }
    exists (iter s). split.
    { apply elem_of_app. left.
      apply (elem_of_sloped_groups O self _ (inv_three _ _ I)). eauto. }
    rewrite !elem_of_iter. auto.
Qed.


Lemma length_omap_le {A B} (f : A → option B) (l : list A) :
  (length (omap f l) ≤ length l)%nat.
Proof.
  induction l as [|a l IH]; simpl; [lia|].
  destruct (f a); simpl; [apply le_n_S|apply le_S]; exact IH.
Qed.


(** ** Groups are different lines *)

Lemma on_two_points l1 l2 p q :
  Line.on l1 p → Line.on l1 q → Line.on l2 p → Line.on l2 q → p ≠ q → l1 = l2.
Proof.
  intros H1p H1q H2p H2q Hne.
  assert (Hx : Point.x p ≠ Point.x q).
  { intros E. apply Hne. apply (on_same_x l1); assumption. }
  rewrite <- (on_through l1 p q), <- (on_through l2 p q); auto.
Qed.

Lemma NoDup_omap_strong {A B} (f : A → option B) (l : list A) :
  (∀ a1 a2 b, a1 ∈ l → a2 ∈ l → f a1 = Some b → f a2 = Some b → a1 = a2) →
  NoDup l → NoDup (omap f l).
Proof.
  intros Hinj Hnd. induction Hnd as [|a l Ha Hnd IH]; simpl; [constructor|].
  assert (IH' : NoDup (omap f l)).
  { apply IH. intros a1 a2 b' H1 H2. apply Hinj; right; assumption. }
  destruct (f a) as [b'|] eqn:E; [|exact IH'].
  constructor; [|exact IH'].
  intros (a' & Ha' & E')%list_elem_of_omap.
  assert (a = a') by (apply (Hinj a a' b'); [left|right; assumption|assumption|assumption]).
  subst a'. contradiction.
Qed.


(** ** The visit as a function of the state *)

Lemma LineParser_eq (st1 st2 : LineParser) :
  points st1 = points st2 →
  lines_to_points st1 = lines_to_points st2 →
  vertical_x_to_y st1 = vertical_x_to_y st2 →
  three_point_lines st1 = three_point_lines st2 →
  st1 = st2.
Proof. destruct st1, st2. simpl. intros -> -> -> ->. reflexivity. Qed.

Lemma visit_after pt1 pt2 self : visit pt1 pt2 self = Ok (after pt1 pt2 self).
Proof.
  unfold after. destruct (decide (Point.x pt1 = Point.x pt2)) as [Hx|Hx].
  - destruct (visit_vertical pt1 pt2 self Hx) as (st & -> & Hp & Hl & H3 & Hv).
    f_equal. apply LineParser_eq; assumption.
  - destruct (visit_sloped pt1 pt2 self Hx) as (st & -> & Hp & Hv & Hl & H3).
    f_equal. apply LineParser_eq; try assumption. simpl.
    apply set_eq. intros l. rewrite H3.
    destruct (decide _) as [[Hin Hsz]|Hno].
    + apply elem_of_dom in Hin as [s Hs]. rewrite Hs in Hsz. simpl in Hsz.
      rewrite elem_of_union, elem_of_singleton. split.
      * intros [? | [-> _]]; auto.
      * intros [? | ->]; eauto.
    + split; [|auto]. intros [? | [-> (s & Hs & Hsz)]]; [assumption|].
      exfalso. apply Hno. split; [apply elem_of_dom; eauto|].
      rewrite Hs. exact Hsz.
Qed.

Lemma for_each_visit_after tr self :
  for_each (λ pq, visit pq.1 pq.2) tr self
  = Ok (foldl (λ st pq, after pq.1 pq.2 st) self tr).
Proof.
  revert self. induction tr as [|[a c] tr IH]; intros self; simpl; [reflexivity|].
  rewrite visit_after. simpl. apply IH.
Qed.

Lemma lookup_add_pair_case `{Countable K} `{Countable V}
    (d : gmap K (gset V)) k k' u v :
  add_pair d k u v !! k'
  = if decide (k = k') then Some (default ∅ (d !! k') ∪ {[u]} ∪ {[v]}) else d !! k'.
Proof.
  destruct (decide (k = k')) as [<-|N].
  - apply lookup_add_pair.
  - apply lookup_add_pair_ne, N.
Qed.

Lemma add_pair_comm `{Countable K} `{Countable V}
    (d : gmap K (gset V)) k1 u1 v1 k2 u2 v2 :
  add_pair (add_pair d k1 u1 v1) k2 u2 v2 = add_pair (add_pair d k2 u2 v2) k1 u1 v1.
Proof.
  apply map_eq. intros k. rewrite !lookup_add_pair_case.
  destruct (decide (k2 = k)) as [->|N2], (decide (k1 = k)) as [->|N1]; simpl;
    try reflexivity.
  f_equal. set_solver.
Qed.

Lemma add_pair_sym `{Countable K} `{Countable V} (d : gmap K (gset V)) k u v :
  add_pair d k u v = add_pair d k v u.
Proof. unfold add_pair. f_equal. set_solver. Qed.

(** Membership in [three_point_lines] after a visit. *)
Lemma elem_of_three_after a c self l :
  l ∈ three_point_lines (after a c self) ↔
  l ∈ three_point_lines self ∨
  (Point.x a ≠ Point.x c ∧ l = through a c ∧
   ∃ s, lines_to_points self !! l = Some s ∧ (3 ≤ size (s ∪ {[a]} ∪ {[c]}))%nat).
Proof.
  unfold after. destruct (decide (Point.x a = Point.x c)) as [Hx|Hx]; simpl.
  - split; [auto|]. intros [? | [? _]]; [assumption|contradiction].
  - destruct (decide _) as [[Hin Hsz]|Hno].
    + apply elem_of_dom in Hin as [s Hs]. rewrite Hs in Hsz. simpl in Hsz.
      rewrite elem_of_union, elem_of_singleton. split.
      * intros [? | ->]; eauto 10.
      * intros [? | (_ & -> & _)]; auto.
    + split; [auto|]. intros [? | (_ & -> & s & Hs & Hsz)]; [assumption|].
      exfalso. apply Hno. split; [apply elem_of_dom; eauto|].
      rewrite Hs. exact Hsz.
Qed.

Lemma lines_after a c self :
  lines_to_points (after a c self)
  = if decide (Point.x a = Point.x c) then lines_to_points self
    else add_pair (lines_to_points self) (through a c) a c.
Proof. unfold after. destruct (decide _); reflexivity. Qed.

Lemma vertical_after a c self :
  vertical_x_to_y (after a c self)
  = if decide (Point.x a = Point.x c)
    then add_pair (vertical_x_to_y self) (Point.x c) (Point.y a) (Point.y c)
    else vertical_x_to_y self.
Proof. unfold after. destruct (decide _); reflexivity. Qed.

Lemma points_after a c self : points (after a c self) = points self.
Proof. unfold after. destruct (decide _); reflexivity. Qed.

Lemma after_sym (pt1 pt2 : Point.t) (self : LineParser) :
  after pt1 pt2 self = after pt2 pt1 self.
Proof.
  apply LineParser_eq.
  - rewrite !points_after. reflexivity.
  - rewrite !lines_after.
    destruct (decide (Point.x pt1 = Point.x pt2)) as [Hx|Hx].
    + rewrite decide_True by auto. reflexivity.
    + rewrite decide_False by auto. rewrite (through_sym pt1 pt2 Hx). apply add_pair_sym.
  - rewrite !vertical_after.
    destruct (decide (Point.x pt1 = Point.x pt2)) as [Hx|Hx].
    + rewrite decide_True by auto. rewrite Hx. apply add_pair_sym.
    + rewrite decide_False by auto. reflexivity.
  - apply set_eq. intros l. rewrite !elem_of_three_after.
    destruct (decide (Point.x pt1 = Point.x pt2)) as [Hx|Hx].
    + split; (intros [? | [N _]]; [auto|exfalso; apply N; auto]).
    + rewrite (through_sym pt1 pt2 Hx).
      assert (E : ∀ s : gset Point.t, s ∪ {[pt2]} ∪ {[pt1]} = s ∪ {[pt1]} ∪ {[pt2]})
        by (intros; set_solver).
      split; intros [? | (_ & -> & s & Hs & Hsz)]; auto; right;
        (split; [auto|]); (split; [reflexivity|]); exists s; (split; [exact Hs|]).
      * rewrite E. exact Hsz.
      * rewrite <- E. exact Hsz.
Qed.

(** X4. The loop body treats its two points alike: visiting (pt1, pt2) and
    visiting (pt2, pt1) leave the same state, from any state. *)
Theorem visit_symmetric (pt1 pt2 : Point.t) (self : LineParser) :
  visit pt1 pt2 self = visit pt2 pt1 self.
Proof. rewrite !visit_after. f_equal. apply after_sym. Qed.

(** ** The order of the visits *)

Lemma lookup_lines_after a c self l :
  lines_to_points (after a c self) !! l
  = if decide (Point.x a ≠ Point.x c ∧ through a c = l)
    then Some (default ∅ (lines_to_points self !! l) ∪ {[a]} ∪ {[c]})
    else lines_to_points self !! l.
Proof.
  rewrite lines_after. destruct (decide (Point.x a = Point.x c)) as [Hx|Hx].
  - rewrite decide_False by tauto. reflexivity.
  - rewrite lookup_add_pair_case. destruct (decide (through a c = l)) as [E|N].
    + rewrite decide_True by tauto. reflexivity.
    + rewrite decide_False by tauto. reflexivity.
Qed.

(** One half of the exchange of two visits, for [three_point_lines]. *)
Lemma three_after_after a c d e self l :
  l ∈ three_point_lines (after d e (after a c self)) →
  l ∈ three_point_lines (after a c (after d e self)).
Proof.
  rewrite !elem_of_three_after. intros [[Hl|Hl]|Hl].
  - auto.
  - (* qualified by the visit of (a, c): still so after the visit of (d, e) *)
    destruct Hl as (Hx & -> & s & Hs & Hsz). right.
    split; [exact Hx|]. split; [reflexivity|].
    rewrite lookup_lines_after, Hs. destruct (decide _); simpl.
    + eexists. split; [reflexivity|]. etransitivity; [exact Hsz|].
      apply subseteq_size. set_solver.
    + eauto.
  - destruct Hl as (Hx & -> & s' & Hs' & Hsz).
    rewrite lookup_lines_after in Hs'.
    destruct (decide (Point.x a ≠ Point.x c ∧ through a c = through d e)) as [[Hac E]|N].
    + (* the two pairs are on one line *)
      injection Hs' as <-. right. split; [exact Hac|]. split; [symmetry; exact E|].
      rewrite lookup_lines_after, decide_True by tauto.
      eexists. split; [reflexivity|].
      etransitivity; [exact Hsz|]. apply subseteq_size. set_solver.
    + left. right. eauto 10.
Qed.

(** Two visits can be exchanged, from any state. *)
Lemma after_comm a c d e self :
  after d e (after a c self) = after a c (after d e self).
Proof.
  apply LineParser_eq.
  - rewrite !points_after. reflexivity.
  - rewrite !lines_after.
    destruct (decide (Point.x d = Point.x e)), (decide (Point.x a = Point.x c));
      try reflexivity.
    apply add_pair_comm.
  - rewrite !vertical_after.
    destruct (decide (Point.x d = Point.x e)), (decide (Point.x a = Point.x c));
      try reflexivity.
    apply add_pair_comm.
  - apply set_eq. intros l. split; apply three_after_after.
Qed.

Lemma foldl_comm_perm {A B} (f : B → A → B) (l1 l2 : list A) :
  (∀ b a1 a2, f (f b a1) a2 = f (f b a2) a1) →
  l1 ≡ₚ l2 → ∀ b, foldl f b l1 = foldl f b l2.
Proof.
  intros Hf Hperm. induction Hperm as [|a l1 l2 _ IH|a1 a2 l|l1 l2 l3 _ IH1 _ IH2];
    intros b; simpl.
  - reflexivity.
  - apply IH.
  - rewrite Hf. reflexivity.
  - rewrite IH1. apply IH2.
Qed.

Lemma after_pairs_perm (l1 l2 : list Point.t) :
  l1 ≡ₚ l2 → ∀ st,
  foldl (λ st pq, after pq.1 pq.2 st) st (ordered_pairs l1)
  = foldl (λ st pq, after pq.1 pq.2 st) st (ordered_pairs l2).
Proof.
  assert (Hcomm : ∀ (b : LineParser) (a1 a2 : Point.t * Point.t),
            after a2.1 a2.2 (after a1.1 a1.2 b) = after a1.1 a1.2 (after a2.1 a2.2 b)).
  { intros b [a c] [d e]. apply after_comm. }
  intros Hperm. induction Hperm as [|a l1 l2 Hp IH|a1 a2 l|l1 l2 l3 _ IH1 _ IH2];
    intros st; simpl.
  - reflexivity.
  - rewrite !foldl_app, IH. f_equal.
    apply foldl_comm_perm; [exact Hcomm|]. apply fmap_Permutation, Hp.
  - rewrite (after_sym a2 a1 st), !app_assoc, !(foldl_app _ _ (ordered_pairs l)). f_equal.
    apply foldl_comm_perm; [exact Hcomm|]. apply Permutation_app_comm.
  - rewrite IH1. apply IH2.
Qed.

(** X5. From any state of the object, the state the scan leaves does not
    depend on the order in which the set of points is listed. *)
Theorem scan_order_irrelevant (O1 O2 : IterOrder) (self : LineParser) :
  get_lines_from_points O1 self = get_lines_from_points O2 self.
Proof.
  unfold get_lines_from_points. rewrite !scan_pairs, !for_each_visit_after. f_equal.
  apply after_pairs_perm. rewrite !iter_perm. reflexivity.
Qed.

(** X6. Two consecutive visits can be exchanged: from any state, visiting
    (a, c) and then (d, e) leaves the state that visiting (d, e) and then
    (a, c) leaves. *)
Theorem visits_commute (a c d e : Point.t) (self : LineParser) :
  (st ← visit a c self; visit d e st) = (st ← visit d e self; visit a c st).
Proof.
  rewrite !visit_after. simpl. rewrite !visit_after. f_equal. apply after_comm.
Qed.

(** ** The scan only adds *)

Lemma grows_refl self : grows self self.
Proof. repeat split; eauto. Qed.

Lemma grows_trans st1 st2 st3 : grows st1 st2 → grows st2 st3 → grows st1 st3.
Proof.
  intros (Hp1 & H31 & Hl1 & Hv1) (Hp2 & H32 & Hl2 & Hv2). repeat split.
  - congruence.
  - set_solver.
  - intros l s Hs. destruct (Hl1 l s Hs) as (s' & Hs' & Hsub).
    destruct (Hl2 l s' Hs') as (s'' & Hs'' & Hsub'). exists s''. split; [exact Hs''|set_solver].
  - intros x0 ys Hs. destruct (Hv1 x0 ys Hs) as (s' & Hs' & Hsub).
    destruct (Hv2 x0 s' Hs') as (s'' & Hs'' & Hsub'). exists s''. split; [exact Hs''|set_solver].
Qed.

Lemma grows_after a c self : grows self (after a c self).
Proof.
  repeat split.
  - apply points_after.
  - intros l Hl. apply elem_of_three_after. auto.
  - intros l s Hs. rewrite lookup_lines_after, Hs. destruct (decide _); simpl.
    + eexists. split; [reflexivity|set_solver].
    + eauto.
  - intros x0 ys Hs. rewrite vertical_after. destruct (decide _); [|eauto].
    rewrite lookup_add_pair_case, Hs. destruct (decide _); simpl.
    + eexists. split; [reflexivity|set_solver].
    + eauto.
Qed.

Lemma adds_from_refl P self : adds_from P self self.
Proof. split; eauto. Qed.

Lemma adds_from_trans P st1 st2 st3 :
  adds_from P st1 st2 → adds_from P st2 st3 → adds_from P st1 st3.
Proof.
  intros [Hl1 Hv1] [Hl2 Hv2]. split.
  - intros l s u Hs Hu. destruct (Hl2 l s u Hs Hu) as [?|(s' & Hs' & Hu')]; [auto|].
    apply (Hl1 l s' u Hs' Hu').
  - intros x0 ys y0 Hs Hy. destruct (Hv2 x0 ys y0 Hs Hy) as [?|(s' & Hs' & Hu')]; [auto|].
    apply (Hv1 x0 s' y0 Hs' Hu').
Qed.

Lemma adds_from_after (P : gset Point.t) a c self :
  a ∈ P → c ∈ P → adds_from P self (after a c self).
Proof.
  intros Ha Hc. split.
  - intros l s' u. rewrite lookup_lines_after.
    destruct (decide _) as [[Hx <-]|N]; [|eauto].
    intros [= <-] Hu. apply elem_of_union in Hu as [Hu|Hu].
    + apply elem_of_union in Hu as [Hu|Hu].
      * destruct (lines_to_points self !! through a c) as [s|]; simpl in Hu; [eauto|].
        set_solver.
      * apply elem_of_singleton in Hu as ->. left. auto using through_on_l.
    + apply elem_of_singleton in Hu as ->. left. auto using through_on_r.
  - intros x0 ys' y0. rewrite vertical_after.
    destruct (decide (Point.x a = Point.x c)) as [Hx|Hx]; [|eauto].
    rewrite lookup_add_pair_case. destruct (decide _) as [<-|N]; [|eauto].
    intros [= <-] Hu. apply elem_of_union in Hu as [Hu|Hu].
    + apply elem_of_union in Hu as [Hu|Hu].
      * destruct (vertical_x_to_y self !! Point.x c) as [s|]; simpl in Hu; [eauto|].
        set_solver.
      * apply elem_of_singleton in Hu as ->. left. rewrite <- Hx. destruct a; exact Ha.
    + apply elem_of_singleton in Hu as ->. left. destruct c; exact Hc.
Qed.

Lemma foldl_after_adds (P : gset Point.t) tr self :
  (∀ p q, (p, q) ∈ tr → p ∈ P ∧ q ∈ P) →
  grows self (foldl (λ st pq, after pq.1 pq.2 st) self tr) ∧
  adds_from P self (foldl (λ st pq, after pq.1 pq.2 st) self tr).
Proof.
  revert self. induction tr as [|[a c] tr IH]; intros self Hin; simpl.
  - split; [apply grows_refl|apply adds_from_refl].
  - destruct (IH (after a c self)) as [Hg Ha].
    { intros p q Hpq. apply Hin. right. exact Hpq. }
    destruct (Hin a c) as [Hpa Hpc]; [left|].
    split.
    + apply (grows_trans _ (after a c self)); [apply grows_after|exact Hg].
    + apply (adds_from_trans P _ (after a c self)); [apply adds_from_after; assumption|exact Ha].
Qed.


(** ** A second call with known points *)



(** ** The entries of the two dicts *)


(** * The files *)

(** ** Splitting a line *)

Lemma split_cons sep s : ∃ field fields, split sep s = field :: fields.
Proof.
  destruct s as [|c s]; simpl; [eauto|].
  destruct (decide (c = sep)); [eauto|]. destruct (split sep s); eauto.
Qed.

(** The first field ends at the first separator. *)
Lemma split_first sep s field fields :
  split sep s = field :: fields →
  (sep ∉ field) ∧
  ((fields = [] ∧ s = field) ∨
   (∃ rest, s = field ++ sep :: rest ∧ split sep rest = fields)).
Proof.
  revert field fields. induction s as [|c s IH]; intros field fields; simpl.
  - intros [= <- <-]. split; [apply not_elem_of_nil|]. left. auto.
  - destruct (decide (c = sep)) as [->|Hc].
    + intros [= <- <-]. split; [apply not_elem_of_nil|]. right. exists s. auto.
    + destruct (split_cons sep s) as (f & fs & E). rewrite E. intros [= <- <-].
      destruct (IH f fs E) as [Hf Hs]. split.
      * apply not_elem_of_cons. auto.
      * destruct Hs as [[-> ->]|(rest & -> & Hrest)]; [left; auto|].
        right. exists rest. auto.
Qed.

Lemma split_no_sep sep s : sep ∉ s → split sep s = [s].
Proof.
  induction s as [|c s IH]; simpl; [reflexivity|].
  intros [Hc Hs]%not_elem_of_cons. rewrite decide_False by auto.
  rewrite (IH Hs). reflexivity.
Qed.

Lemma split_app sep a rest :
  sep ∉ a → split sep (a ++ sep :: rest) = a :: split sep rest.
Proof.
  induction a as [|c a IH]; simpl.
  - intros _. rewrite decide_True by reflexivity. reflexivity.
  - intros [Hc Ha]%not_elem_of_cons. rewrite decide_False by auto.
    rewrite (IH Ha). reflexivity.
Qed.

(** Exactly two fields: exactly one separator. *)
Lemma split_two sep s a c :
  split sep s = [a; c] ↔ s = a ++ sep :: c ∧ (sep ∉ a) ∧ (sep ∉ c).
Proof.
  split.
  - intros E. destruct (split_first sep s _ _ E) as [Ha [[? _]|(rest & -> & Er)]];
      [discriminate|].
    destruct (split_first sep rest _ _ Er) as [Hc [[_ ->]|(rest' & _ & Er')]]; [auto|].
    destruct (split_cons sep rest') as (? & ? & E'). congruence.
  - intros (-> & Ha & Hc). rewrite (split_app sep a c Ha), (split_no_sep sep c Hc).
    reflexivity.
Qed.

(** ** Reading the points *)


Lemma add_record_of_line Fraction line self :
  add_record Fraction line self
  = match record_of_line Fraction line with
    | Some p => inr (set_points (points self ∪ {[p]}) self)
    | None =>
        inl (match split comma line with
             | [_; _] => Fraction_failed
             | _ => unpack_failed
             end)
    end.
Proof.
  unfold add_record, record_of_line.
  destruct (split comma line) as [|x1 [|y1 [|z fields]]]; try reflexivity.
  destruct (Fraction x1); simpl; [|reflexivity].
  destruct (Fraction y1); reflexivity.
Qed.

Lemma add_records_prefix Fraction lines self :
  (add_records Fraction lines self).1
  = parse_points_from_csv (records_before_error Fraction lines) self.
Proof.
  unfold parse_points_from_csv.
  revert self. induction lines as [|line lines IH]; intros self; simpl.
  - destruct self. reflexivity.
  - rewrite add_record_of_line. destruct (record_of_line Fraction line) as [p|]; simpl.
    + rewrite IH. reflexivity.
    + destruct self. reflexivity.
Qed.

Lemma add_records_printed Fraction lines self :
  (add_records Fraction lines self).2 = None ↔
  Forall (λ line, is_Some (record_of_line Fraction line)) lines.
Proof.
  revert self. induction lines as [|line lines IH]; intros self; simpl.
  - split; [constructor|reflexivity].
  - rewrite add_record_of_line. destruct (record_of_line Fraction line) as [p|] eqn:E; simpl.
    + rewrite IH. split; [intros H; constructor; [eauto|exact H]|].
      intros H. apply Forall_cons in H as [_ H]. exact H.
    + split; [discriminate|]. intros H. apply Forall_cons in H as [[? H] _].
      congruence.
Qed.

Lemma points_parse records self :
  points (parse_points_from_csv records self) = points self ∪ list_to_set records.
Proof.
  unfold parse_points_from_csv. simpl. generalize (points self).
  induction records as [|r rs IH]; intros s; simpl.
  - set_solver.
  - rewrite IH. set_solver.
Qed.

Lemma parse_file_records Fraction file self :
  (parse_points_from_csv_file Fraction file self).1
  = parse_points_from_csv (records_of_file Fraction file) self.
Proof.
  destruct file as [content|]; simpl.
  - apply add_records_prefix.
  - destruct self. reflexivity.
Qed.


Lemma records_before_error_app Fraction good bad rest records :
  Forall2 (λ line p, record_of_line Fraction line = Some p) good records →
  record_of_line Fraction bad = None →
  records_before_error Fraction (good ++ bad :: rest) = records.
Proof.
  intros Hgood Hbad. induction Hgood as [|line p good records Hp _ IH]; simpl.
  - rewrite Hbad. reflexivity.
  - rewrite Hp, IH. reflexivity.
Qed.




(** ** Writing the result and reading it back *)

Lemma length_lstrip s : (length (lstrip s) ≤ length s)%nat.
Proof.
  induction s as [|c s IH]; simpl; [lia|]. destruct (Ascii.is_space c); simpl; lia.
Qed.

Lemma lstrip_head c s : Ascii.is_space c = false → lstrip (c :: s) = c :: s.
Proof. simpl. intros ->. reflexivity. Qed.

Lemma lstrip_space c s : Ascii.is_space c = true → lstrip (c :: s) = lstrip s.
Proof. simpl. intros ->. reflexivity. Qed.

Lemma lstrip_fixed s : length (lstrip s) = length s → lstrip s = s.
Proof.
  destruct s as [|c s]; simpl; [reflexivity|].
  destruct (Ascii.is_space c); [|reflexivity].
  intros E. pose proof (length_lstrip s). lia.
Qed.

Lemma length_rstrip s : (length (rstrip s) ≤ length s)%nat.
Proof.
  unfold rstrip. rewrite length_reverse.
  etransitivity; [apply length_lstrip|]. rewrite length_reverse. reflexivity.
Qed.

(** A string that [strip] leaves alone has no whitespace at either end. *)
Lemma strip_fixed s : strip s = s → lstrip s = s ∧ rstrip s = s.
Proof.
  intros E.
  assert (Hl : lstrip s = s).
  { apply lstrip_fixed. apply Nat.le_antisymm; [apply length_lstrip|].
    rewrite <- E at 1. apply length_rstrip. }
  split; [exact Hl|]. unfold strip in E. rewrite Hl in E. exact E.
Qed.

Lemma strip_line_newline line : clean line → strip (line ++ [newline]) = line.
Proof.
  intros [_ [Hl Hr]%strip_fixed]. unfold strip.
  destruct line as [|c line]; [reflexivity|].
  assert (Hc : Ascii.is_space c = false).
  { destruct (Ascii.is_space c) eqn:E; [|reflexivity].
    rewrite (lstrip_space c line E) in Hl.
    pose proof (length_lstrip line) as Hlen. rewrite Hl in Hlen. simpl in Hlen. lia. }
  change ((c :: line) ++ [newline]) with (c :: (line ++ [newline])).
  rewrite (lstrip_head c _ Hc).
  change (c :: (line ++ [newline])) with ((c :: line) ++ [newline]).
  unfold rstrip. rewrite reverse_app. simpl.
  exact Hr.
Qed.

Lemma readlines_line line rest :
  newline ∉ line →
  readlines (line ++ newline :: rest) = (line ++ [newline]) :: readlines rest.
Proof.
  induction line as [|c line IH]; cbn [readlines app].
  - intros _. rewrite decide_True by reflexivity. reflexivity.
  - intros [Hc Hline]%not_elem_of_cons. rewrite decide_False by auto.
    rewrite (IH Hline). reflexivity.
Qed.

Lemma written_content lines acc :
  foldl (λ content line, content ++ (line ++ [newline])) acc lines
  = acc ++ concat ((λ line, line ++ [newline]) <$> lines).
Proof.
  revert acc. induction lines as [|line lines IH]; intros acc; simpl.
  - rewrite app_nil_r. reflexivity.
  - rewrite IH, <- app_assoc. reflexivity.
Qed.

Lemma readlines_written lines :
  Forall clean lines →
  strip <$> readlines (concat ((λ line, line ++ [newline]) <$> lines)) = lines.
Proof.
  induction 1 as [|line lines Hline _ IH]; [reflexivity|].
  rewrite fmap_cons. cbn [concat]. rewrite <- app_assoc. cbn [app].
  rewrite readlines_line by apply Hline.
  rewrite fmap_cons, (strip_line_newline line Hline), IH. reflexivity.
Qed.

(** X14. What [write_lines_to_csv] writes is read back unchanged by the
    first lines of [parse_points_from_csv] ([readlines], then [strip] on
    each line), for lines without a newline and without whitespace at their
    ends: one line of the file for each element of the list, in order. When
    the file cannot be opened nothing is written. *)
Theorem written_lines_read_back (lines : list str) :
  Forall clean lines →
  ∃ content,
    write_lines_to_csv lines true = Some content ∧
    strip <$> readlines content = lines ∧
    length (readlines content) = length lines ∧
    write_lines_to_csv lines false = None.
Proof.
  intros Hclean. unfold write_lines_to_csv. rewrite written_content. simpl.
  eexists. split; [reflexivity|].
  pose proof (readlines_written lines Hclean) as E.
  split; [exact E|]. split; [|reflexivity].
  rewrite <- E at 2. rewrite length_fmap. reflexivity.
Qed.

Lemma written_lines_read_back_witness :
  ∃ content,
    write_lines_to_csv [lit "1,0.0,0.0,1.0,1.0,2.0,2.0"; lit "2,2.0,1.0,2.0,5.0,2.0,9.0"] true
      = Some content ∧
    strip <$> readlines content
      = [lit "1,0.0,0.0,1.0,1.0,2.0,2.0"; lit "2,2.0,1.0,2.0,5.0,2.0,9.0"] ∧
    length (readlines content)
      = length [lit "1,0.0,0.0,1.0,1.0,2.0,2.0"; lit "2,2.0,1.0,2.0,5.0,2.0,9.0"] ∧
    write_lines_to_csv [lit "1,0.0,0.0,1.0,1.0,2.0,2.0"; lit "2,2.0,1.0,2.0,5.0,2.0,9.0"] false
      = None.
Proof.
  apply (written_lines_read_back
           [lit "1,0.0,0.0,1.0,1.0,2.0,2.0"; lit "2,2.0,1.0,2.0,5.0,2.0,9.0"]).
  assert (Hclean : ∀ line : str,
            bool_decide (newline ∉ line) = true → strip line = line → clean line).
  { intros line H1%bool_decide_eq_true H2. split; assumption. }
  constructor; [|constructor; [|constructor]];
    (apply Hclean; vm_compute; reflexivity).
Defined.

(** ** The constructor of Line, and the equality of Point *)

(** X15. [Line(pt1, pt2)] raises ZeroDivisionError exactly when the two
    points have the same abscissa; otherwise it gives a line through both
    points, the same line for the two points in the other order, and the
    only line through them. *)
Theorem line_through_two_points (pt1 pt2 : Point.t) :
  match Line.init pt1 pt2 with
  | Ok l =>
      Point.x pt1 ≠ Point.x pt2 ∧ Line.on l pt1 ∧ Line.on l pt2 ∧
      Line.init pt2 pt1 = Ok l ∧
      (∀ k, Line.on k pt1 → Line.on k pt2 → k = l)
  | Raise e =>
      e = ZeroDivisionError ∧ Point.x pt1 = Point.x pt2 ∧
      Line.init pt2 pt1 = Raise ZeroDivisionError
  end.
Proof.
  destruct (decide (Point.x pt1 = Point.x pt2)) as [E|N].
  - rewrite (init_raises _ _ E). auto using init_raises.
  - rewrite (init_through _ _ N). split; [exact N|].
    split; [apply through_on_l, N|]. split; [apply through_on_r, N|]. split.
    + rewrite <- (through_sym pt1 pt2 N). apply init_through. auto.
    + intros k H1 H2. symmetry. apply on_through; assumption.
Qed.

(** X16. [Point.__eq__] holds exactly for points with the same two
    coordinates and [__ne__] exactly for the others; [__eq__] is reflexive,
    symmetric and transitive, and points it finds equal have the same hash,
    as sets and dict keys need. *)
Theorem point_equality (hash_pair : Qc * Qc → Z) (p q r : Point.t) :
  (Point.eqb p q = true ↔ Point.x p = Point.x q ∧ Point.y p = Point.y q) ∧
  (Point.neb p q = true ↔ Point.x p ≠ Point.x q ∨ Point.y p ≠ Point.y q) ∧
  Point.eqb p p = true ∧
  Point.eqb p q = Point.eqb q p ∧
  (Point.eqb p q = true → Point.eqb q r = true → Point.eqb p r = true) ∧
  (Point.eqb p q = true → Point.hash hash_pair p = Point.hash hash_pair q).
Proof.
  assert (E : ∀ a c, Point.eqb a c = true ↔ Point.x a = Point.x c ∧ Point.y a = Point.y c).
  { intros a c. unfold Point.eqb. rewrite andb_true_iff, !bool_decide_eq_true. reflexivity. }
  split; [apply E|]. split; [|split; [|split; [|split]]].
  - unfold Point.neb. rewrite negb_true_iff, <- not_true_iff_false, E.
    destruct (decide (Point.x p = Point.x q)), (decide (Point.y p = Point.y q)); tauto.
  - apply E. auto.
  - destruct (Point.eqb p q) eqn:E1, (Point.eqb q p) eqn:E2; try reflexivity.
    + apply E in E1 as [? ?]. rewrite <- E2. symmetry. apply E. auto.
    + apply E in E2 as [? ?]. rewrite <- E1. apply E. auto.
  - rewrite !E. intros [-> ->] [-> ->]. auto.
  - intros ->%Point_eqb_eq. reflexivity.
Qed.

(** * Duplicates, missing files and the size of the dicts *)



(** X18. A file that cannot be opened, an empty file, and a file whose first
    line is malformed all give, on a new object, the empty result, and leave
    the object as it was created; the first and the last print an exception,
    the empty file prints none. *)
Theorem no_record_no_group (O : IterOrder) (in_range : Qc → bool)
    (Fraction : str → option Qc) (file : option str) :
  records_of_file Fraction file = [] →
  get_3_point_lines_file Fraction O in_range file fresh = Ok (fresh, Ok []) ∧
  (file = None → (parse_points_from_csv_file Fraction file fresh).2 = Some open_failed) ∧
  (file = Some [] → (parse_points_from_csv_file Fraction file fresh).2 = None) ∧
  (∀ content line lines,
     file = Some content → strip <$> readlines content = line :: lines →
     is_Some (parse_points_from_csv_file Fraction file fresh).2).
Proof.
  intros Hrec. split; [|split; [|split]].
  - unfold get_3_point_lines_file. rewrite parse_file_records, Hrec.
    unfold get_lines_from_points, parse_points_from_csv. simpl.
    rewrite iter_empty. simpl.
    unfold report, report_sloped, report_vertical. simpl.
    rewrite dom_empty_L, !iter_empty. reflexivity.
  - intros ->. reflexivity.
  - intros ->. reflexivity.
  - intros content line lines -> Hlines. simpl in *. rewrite Hlines in *. simpl in *.
    rewrite add_record_of_line.
    destruct (record_of_line Fraction line); [discriminate|]. simpl. eauto.
Qed.

Lemma no_record_no_group_witness :
  get_3_point_lines_file Fraction_of_digits canonical_order double_range
    (Some (lit "1;2")) fresh
    = Ok (fresh, Ok []) ∧
  (Some (lit "1;2") = None →
     (parse_points_from_csv_file Fraction_of_digits (Some (lit "1;2")) fresh).2
       = Some open_failed) ∧
  (Some (lit "1;2") = Some [] →
     (parse_points_from_csv_file Fraction_of_digits (Some (lit "1;2")) fresh).2 = None) ∧
  (∀ content line lines,
     Some (lit "1;2") = Some content → strip <$> readlines content = line :: lines →
     is_Some (parse_points_from_csv_file Fraction_of_digits (Some (lit "1;2")) fresh).2).
Proof.
  apply (no_record_no_group canonical_order double_range Fraction_of_digits
           (Some (lit "1;2"))).
  vm_compute. reflexivity.
Defined.

Lemma size_list_to_set_le `{Countable A} (l : list A) :
  (size (list_to_set l : gset A) ≤ length l)%nat.
Proof.
  induction l as [|a l IH].
  - rewrite list_to_set_nil, size_empty. reflexivity.
  - rewrite list_to_set_cons. etransitivity; [apply size_union_le|].
    rewrite size_singleton. simpl. lia.
Qed.

Lemma size_dom_le `{Countable K} {V B} (m : gmap K V) (f : B → K) (l : list B) :
  (∀ k, k ∈ dom m → ∃ b, b ∈ l ∧ f b = k) → (size m ≤ length l)%nat.
Proof.
  intros Hdom. rewrite <- size_dom, <- (length_fmap f l).
  etransitivity; [|apply size_list_to_set_le].
  apply subseteq_size. intros k Hk. apply elem_of_list_to_set, list_elem_of_fmap.
  destruct (Hdom k Hk) as (b & Hb & <-). eauto.
Qed.

